(** * Challenge portfolio

    A shallow embedding of the TypeScript challenge solutions
    [extract-strings.ts], [subsequence-indices.ts], [fibonacci-order.ts],
    [split-on-new-chars.ts] and [square-difference-free.ts] of
    [typescript-challenges/code], with the helpers of their tests, together
    with the properties their documentation and tests state about them. *)

From Stdlib Require Import NArith ZArith Ascii String Sorted.
From stdpp Require Import list strings gmap.
From Equations Require Import Equations.

(** ** JavaScript strings

    A JavaScript string is a sequence of UTF-16 code units.  [for (const char
    of text)] does not walk over code units but over code points: a leading
    surrogate directly followed by a trailing surrogate is handed to the loop
    body as one two-unit string, every other unit as a one-unit string. *)

Module JS.

Definition jsstring : Type := list N.

Definition isLeadingSurrogate (u : N) : bool :=
  ((0xD800 <=? u) && (u <=? 0xDBFF))%N.

Definition isTrailingSurrogate (u : N) : bool :=
  ((0xDC00 <=? u) && (u <=? 0xDFFF))%N.

(** The values produced by the string iterator, in order. *)
Fixpoint codePoints (s : jsstring) : list jsstring :=
  match s with
  | [] => []
  | u :: rest =>
      match rest with
      | v :: rest' =>
          if isLeadingSurrogate u && isTrailingSurrogate v
          then [u; v] :: codePoints rest'
          else [u] :: codePoints rest
      | [] => [[u]]
      end
  end.

(** [a + b] on strings. *)
Definition concatStrings (a b : jsstring) : jsstring := a ++ b.

(** [parts.join('')]. *)
Definition join (parts : list jsstring) : jsstring := concat parts.

(** [a == b] and [a === b] on two strings: same sequence of code units. *)
Definition stringEquals (a b : jsstring) : bool := bool_decide (a = b).

(** A string literal of the source that holds only 8-bit characters. *)
Definition lit (s : string) : jsstring :=
  (fun a => N_of_ascii a) <$> list_ascii_of_string s.

(** The outcome of a call: a returned value or a thrown [Error]. *)
Inductive completion (A : Type) : Type :=
| Returned (value : A)
| Thrown (message : string).
Arguments Returned {A} value.
Arguments Thrown {A} message.

End JS.

Import JS.

(** ** extract-strings.ts *)

Module ExtractStrings.

(** [type State]: the three-member tagged union; [parsed] is the character
    array of the string being parsed.  The array is only ever reachable
    through the one current state object, so pushing to it in place is
    modelled by appending to the list. *)
Inductive State : Type :=
| outside
| inside (parsed : list jsstring)
| transition (parsed : list jsstring).

(** The three string literals of the function body: the character appended
    to the text (line 48), the character each [char] is compared with
    (line 52, U+0022) and the character pushed for an escaped pair
    (line 79, U+0027). *)
Definition sentinel : jsstring := lit "*".
Definition testedChar : jsstring := [34%N].
Definition pushedChar : jsstring := lit "'".

(** The variables the loop body reads and writes. *)
Record Vars : Type := mkVars {
  extractedStrings : list jsstring;
  state : State
}.

(** [const isSingleQuote = ...] (line 52). *)
Definition isSingleQuote (char : jsstring) : bool := stringEquals char testedChar.

(** One run of the body of the [for] loop (lines 52-91). *)
Definition body (v : Vars) (char : jsstring) : Vars :=
  match state v with
  | outside =>
      if isSingleQuote char
      then mkVars (extractedStrings v) (inside [])
      else v
  | inside parsed =>
      if isSingleQuote char
      then mkVars (extractedStrings v) (transition parsed)
      else mkVars (extractedStrings v) (inside (parsed ++ [char]))
  | transition parsed =>
      if isSingleQuote char
      then mkVars (extractedStrings v) (inside (parsed ++ [pushedChar]))
      else mkVars (extractedStrings v ++ [join parsed]) outside
  end.

(** The [for] loop over a sequence of characters, from given variables. *)
Definition forLoop (v : Vars) (chars : list jsstring) : Vars :=
  fold_left body chars v.

(** The variables as initialised on lines 49-50. *)
Definition initial : Vars := mkVars [] outside.

(** Lines 98-99. *)
Definition finish (v : Vars) : completion (list jsstring) :=
  match state v with
  | outside => Returned (extractedStrings v)
  | _ => Thrown "Unmatched single quote"
  end.

Definition extractStrings (text : jsstring) : completion (list jsstring) :=
  let text := concatStrings text sentinel in
  finish (forLoop initial (codePoints text)).

(** The variables when the loop has run over the whole extended text. *)
Definition finalVars (text : jsstring) : Vars :=
  forLoop initial (codePoints (concatStrings text sentinel)).

(** What a call yields, read off the variables reached at the end of the
    text itself, before the appended character is looked at. *)
Definition settle (v : Vars) : completion (list jsstring) :=
  match state v with
  | outside => Returned (extractedStrings v)
  | transition parsed => Returned (extractedStrings v ++ [join parsed])
  | inside _ => Thrown "Unmatched single quote"
  end.

(** Every code unit of every string the variables hold satisfies [P]. *)
Definition unitsOfVars (P : N -> Prop) (v : Vars) : Prop :=
  Forall (Forall P) (extractedStrings v) /\
  match state v with
  | outside => True
  | inside parsed | transition parsed => Forall (Forall P) parsed
  end.

(** How often a code unit occurs in a text. *)
Definition occurrences (u : N) (text : jsstring) : nat :=
  length (filter (fun w => w = u) text).

End ExtractStrings.

Import ExtractStrings.

(** ** extract-strings.test.ts: how the property test builds its inputs *)

Module ExtractStringsTest.

(** [repr]: the string as it is written in a text, every single quote
    doubled and the whole wrapped in single quotes. *)
Definition repr (s : jsstring) : jsstring :=
  let withEscapedQuotes :=
    join ((fun char => if stringEquals char (lit "'") then lit "''" else char)
            <$> codePoints s) in
  concatStrings (lit "'") (concatStrings withEscapedQuotes (lit "'")).

(** [roundrobin] of itertools on two iterables: one value of each in turn,
    then what is left of the longer one. *)
Fixpoint roundrobin {A : Type} (xs ys : list A) : list A :=
  match xs, ys with
  | x :: xs', y :: ys' => x :: y :: roundrobin xs' ys'
  | [], _ => ys
  | _, [] => xs
  end.

(** The text built from the non-string portions and the strings. *)
Definition textOf (nonStringPortions extractedStrings : list jsstring) : jsstring :=
  join (roundrobin nonStringPortions (repr <$> extractedStrings)).

(** What the generator lets through: [n + 1] portions for [n] strings, none
    holding a single quote, all but the first and the last non-empty. *)
Definition admissible (nonStringPortions extractedStrings : list jsstring) : Prop :=
  let n := length extractedStrings in
  length nonStringPortions = n + 1 /\
  Forall (fun s => 39%N ∉ s) nonStringPortions /\
  forall i s, nonStringPortions !! i = Some s -> i = 0 \/ i = n \/ 0 < length s.

End ExtractStringsTest.

Import ExtractStringsTest.

(** ** subsequence-indices.ts *)

Module SubsequenceIndices.

Section Generic.

(** The element type [T] and its [===]. Nothing is assumed of [===]: it need
    not be reflexive (it is not on [NaN]). *)
Context {T : Type} (strictEquals : T -> T -> bool).

(** [list[index]]: [None] stands for the [undefined] of a read out of
    range. *)
Definition at_ {A : Type} (arr : list A) (index : nat) : option A := arr !! index.

(** [x === y] where either side may be [undefined]. *)
Definition tripleEquals (x y : option T) : bool :=
  match x, y with
  | Some a, Some b => strictEquals a b
  | None, None => true
  | _, _ => false
  end.

Definition reachedEndOfList {A : Type} (arr : list A) (index : nat) : bool :=
  bool_decide (index = length arr).

Definition inspect {A : Type} (a : A) : {b : A | a = b} := exist _ a eq_refl.

(** The [while (true)] loop (lines 56-70) from the given values of
    [indices], [arrIndex] and [subIndex].  [arrIndex] moves up by one in
    every round that does not return, and the loop leaves when it meets
    [arr.length]; [arrIndex <= arr.length] is what makes it terminate. *)
Equations? whileTrue (arr sub : list T) (indices : list nat)
    (arrIndex subIndex : nat) (bound : arrIndex <= length arr)
    : option (list nat) by wf (length arr - arrIndex) lt :=
  whileTrue arr sub indices arrIndex subIndex bound
    with inspect (reachedEndOfList sub subIndex) := {
    | exist _ true _ => Some indices
    | exist _ false _ with inspect (reachedEndOfList arr arrIndex) := {
      | exist _ true _ => None
      | exist _ false notAtEnd
          with tripleEquals (at_ arr arrIndex) (at_ sub subIndex) := {
        | true =>
            whileTrue arr sub (indices ++ [arrIndex]) (S arrIndex) (S subIndex) _
        | false =>
            whileTrue arr sub indices (S arrIndex) subIndex _ } } }.
Proof.
  all: unfold reachedEndOfList in notAtEnd;
    apply bool_decide_eq_false in notAtEnd; lia.
Qed.

Definition subsequence_indices (arr sub : list T) : option (list nat) :=
  whileTrue arr sub [] 0 0 (Nat.le_0_l (length arr)).

(** [indices] is strictly ascending. *)
Definition strictlyAscending (indices : list nat) : Prop :=
  forall j k a b,
    indices !! j = Some a -> indices !! k = Some b -> j < k -> a < b.

(** Every index of [indices] is in bounds of [arr], and the elements of
    [arr] read there are, one by one, [===] to the elements of [sub]. *)
Definition selects (arr : list T) (indices : list nat) (sub : list T) : Prop :=
  Forall2 (fun i y => exists x, arr !! i = Some x /\ strictEquals x y = true)
    indices sub.

(** [sub] occurs as a (not necessarily contiguous) subsequence of [arr]. *)
Definition occursIn (sub arr : list T) : Prop :=
  exists indices, strictlyAscending indices /\ selects arr indices sub.

(** Strictly ascending with every index at least [lo]. *)
Fixpoint ascendingFrom (lo : nat) (indices : list nat) : Prop :=
  match indices with
  | [] => True
  | i :: rest => lo <= i /\ ascendingFrom (S i) rest
  end.

End Generic.

(** [===] on an element type whose values are [===] exactly when they are
    the same value (strings, booleans, integers, object references). *)
Definition sameValue {T : Type} `{EqDecision T} (x y : T) : bool :=
  bool_decide (x = y).

End SubsequenceIndices.

Import SubsequenceIndices.

(** ** extract-strings.ts: notions used to state further properties *)

Module ExtractStringsShape.

(** The number of tested characters among the given ones. *)
Definition testedAmong (chars : list jsstring) : nat :=
  length (filter (fun char => char = testedChar) chars).

(** [true] for the state [inside], [false] for the other two. *)
Definition stateParity (st : State) : bool :=
  match st with
  | inside _ => true
  | _ => false
  end.

(** A string wrapped in double quotes. *)
Definition doubleQuoted (s : jsstring) : jsstring := [34%N] ++ s ++ [34%N].

(** The strings the variables hold once a pending closing quote is taken as
    one. *)
Definition closed (v : Vars) : list jsstring :=
  match state v with
  | transition parsed => extractedStrings v ++ [join parsed]
  | _ => extractedStrings v
  end.

End ExtractStringsShape.

(** ** subsequence-indices.test.ts *)

Module SubsequenceIndicesTest.

(** [arr.filter((_, i) => ithElementIncluded[i])] of [listAndSubsequence]:
    the elements of [arr] whose index the mask includes; an index beyond
    the mask reads [undefined], which excludes the element. *)
Fixpoint filterByMask {T : Type} (arr : list T) (ithElementIncluded : list bool)
    : list T :=
  match arr, ithElementIncluded with
  | x :: arr', true :: mask' => x :: filterByMask arr' mask'
  | _ :: arr', false :: mask' => filterByMask arr' mask'
  | _, _ => []
  end.

End SubsequenceIndicesTest.

(** ** Calls that can throw *)

Module Outcome.

(** The errors thrown in the code modelled below: [Error] with its message,
    the [AssertionError] of a failed [assert], and the [TypeError] of an
    operation on [undefined]. *)
Inductive exception : Type :=
| Error (message : string)
| AssertionError
| TypeError.

Inductive outcome (A : Type) : Type :=
| Return (value : A)
| Throw (e : exception).
Arguments Return {A} value.
Arguments Throw {A} e.

#[global] Instance outcome_bind : MBind outcome := fun A B k c =>
  match c with
  | Return a => k a
  | Throw e => Throw e
  end.

(** [assert(condition)] of node:assert. *)
Definition assert (condition : bool) : outcome unit :=
  if condition then Return tt else Throw AssertionError.

(** [list.map(f)] where [f] can throw: the calls are made in order and the
    first throw ends the whole. *)
Fixpoint mapM {A B : Type} (f : A -> outcome B) (l : list A) : outcome (list B) :=
  match l with
  | [] => Return []
  | a :: l' => b ← f a; bs ← mapM f l'; Return (b :: bs)
  end.

(** [for (const x of list) body] threading the variables [v]. *)
Fixpoint forOf {V A : Type} (body : V -> A -> outcome V) (v : V) (l : list A)
    : outcome V :=
  match l with
  | [] => Return v
  | a :: l' => v' ← body v a; forOf body v' l'
  end.

End Outcome.

Import Outcome.

(** ** fibonacci-order.ts *)

Module SumSlice.

(** [class SumSlice]: the array the slice is taken from, the inclusive start
    and exclusive end index, and the sum of the elements in between. *)
Record t : Type := new {
  arr : list Z;
  start : nat;
  end_ : nat;
  sum : Z
}.

Definition empty (arr : list Z) : t := new arr 0 0 0.

(** [arr[index]!] used as an operand of bigint arithmetic: when the read is
    out of range the operand is [undefined] and the operation throws a
    [TypeError]. *)
Definition operand (arr : list Z) (index : nat) : outcome Z :=
  match arr !! index with
  | Some x => Return x
  | None => Throw TypeError
  end.

Definition moveRight (this : t) : outcome t :=
  a ← operand (arr this) (start this);
  b ← operand (arr this) (end_ this);
  Return (new (arr this) (start this + 1) (end_ this + 1) (sum this - a + b)).

Definition expandRight (this : t) : outcome t :=
  b ← operand (arr this) (end_ this);
  Return (new (arr this) (start this) (end_ this + 1) (sum this + b)).

(** [get length]. *)
Definition length (this : t) : Z := Z.of_nat (end_ this) - Z.of_nat (start this).

End SumSlice.

Module FibonacciOrder.

(** One run of the body of the [for] loop over [arr]; the variables are
    [slices] and [expandingSlice]. *)
Definition body (v : list SumSlice.t * SumSlice.t) (x : Z)
    : outcome (list SumSlice.t * SumSlice.t) :=
  let '(slices, expandingSlice) := v in
  _ ← assert (bool_decide (length slices <= 2));
  slices ← mapM SumSlice.moveRight
              (filter (fun slice => SumSlice.sum slice = x) slices);
  expandingSlice ← SumSlice.expandRight expandingSlice;
  Return (slices ++ [expandingSlice], expandingSlice).

Definition fibonacciOrder (arr : list Z) : outcome Z :=
  if negb (forallb (fun x => 0 <? x)%Z arr)
  then Throw (Error "`fibonacciOrder` only accepts lists of positive integers")
  else
    let expandingSlice := SumSlice.empty arr in
    let slices := [expandingSlice] in
    '(slices, _) ← forOf body (slices, expandingSlice) arr;
    match slices !! 0 with
    | Some slice => Return (SumSlice.length slice)
    | None => Throw TypeError
    end.

(** The sum of a list of integers. *)
Definition sumZ (l : list Z) : Z := foldr Z.add 0%Z l.

(** The sum of [arr[lo], ..., arr[hi - 1]]. *)
Definition rangeSum (arr : list Z) (lo hi : nat) : Z :=
  sumZ (take (hi - lo) (drop lo arr)).

(** The slice of length [n] that ends before index [i]. *)
Definition sliceOf (arr : list Z) (i n : nat) : SumSlice.t :=
  SumSlice.new arr (i - n) i (rangeSum arr (i - n) i).

(** Every element at an index from [n] on and below [i] is the sum of the
    [n] elements before it. *)
Definition fits (arr : list Z) (i n : nat) : Prop :=
  Forall (fun k => arr !! k = Some (rangeSum arr (k - n) k)) (seq n (i - n)).

#[global] Instance fits_dec arr i n : Decision (fits arr i n).
Proof. unfold fits. apply _. Defined.

(** The lengths up to [i] that fit the first [i] elements, in ascending
    order. *)
Definition candidates (arr : list Z) (i : nat) : list nat :=
  filter (fits arr i) (seq 0 (S i)).

End FibonacciOrder.

(** ** fibonacci-order.test.ts: the oracle *)

Module FibonacciOrderTest.

(** [arr.slice(start, end)] for integer arguments: a negative index counts
    from the end, and both are clamped to the array. *)
Definition slice {A : Type} (arr : list A) (start end_ : Z) : list A :=
  let len := Z.of_nat (length arr) in
  let clamp (index : Z) :=
    (if index <? 0 then Z.max (len + index) 0 else Z.min index len)%Z in
  let k := clamp start in
  let final := clamp end_ in
  take (Z.to_nat (final - k)) (drop (Z.to_nat k) arr).

Definition sumOfPreviousNElements (arr : list Z) (index n : Z) : outcome Z :=
  let previousNElements := slice arr (index - n) index in
  _ ← assert (bool_decide (Z.of_nat (length previousNElements) = n));
  Return (foldl Z.add 0%Z previousNElements).

(** [arr.every((x, i) => ...)] from index [i] on, with a callback that can
    throw: it stops at the first [false]. *)
Fixpoint every {A : Type} (callback : A -> nat -> outcome bool)
    (i : nat) (l : list A) : outcome bool :=
  match l with
  | [] => Return true
  | x :: l' =>
      b ← callback x i;
      if (b : bool) then every callback (S i) l' else Return false
  end.

Definition isNBonacciLikeList (arr : list Z) (n : nat) : outcome bool :=
  every (fun x i =>
           if bool_decide (i < n) then Return true
           else
             s ← sumOfPreviousNElements arr (Z.of_nat i) (Z.of_nat n);
             Return (bool_decide (s = x)))
    0 arr.

End FibonacciOrderTest.

(** ** fibonacci-order.test.ts: the generator of the property test *)

Module FibonacciOrderGenerator.

(** The body of [nBonacciLikeList]: [k] times, the sum of the last [n]
    elements is pushed to the array. *)
Fixpoint extend (k n : nat) (arr : list Z) : outcome (list Z) :=
  match k with
  | 0 => Return arr
  | S k' =>
      let indexOfNewElement := length arr in
      s ← FibonacciOrderTest.sumOfPreviousNElements arr
            (Z.of_nat indexOfNewElement) (Z.of_nat n);
      extend k' n (arr ++ [s])
  end.

Definition nBonacciLikeList (arr : list Z) (numAdditionalElements : nat)
    : outcome (list Z) :=
  let n := length arr in
  extend numAdditionalElements n arr.

End FibonacciOrderGenerator.

(** ** split-on-new-chars.ts *)

Module SplitOnNewChars.

(** The variables of the function: the array [arr] and the set
    [encounteredChars]. *)
Record Vars : Type := mkVars {
  arr : list jsstring;
  encounteredChars : gset jsstring
}.

(** [arr[arr.length - 1]! += char].  On an empty array the index is [-1]:
    the assignment then creates a property of that name on the array object
    and leaves its elements and its length as they are. *)
Definition appendToLast (arr : list jsstring) (char : jsstring) : list jsstring :=
  match length arr with
  | 0 => arr
  | S last => alter (fun s => concatStrings s char) last arr
  end.

(** One run of the body of the [for] loop (lines 21-25). *)
Definition body (v : Vars) (char : jsstring) : Vars :=
  let v :=
    if negb (bool_decide (char ∈ encounteredChars v))
    then mkVars (arr v ++ [[]]) ({[char]} ∪ encounteredChars v)
    else v in
  mkVars (appendToLast (arr v) char) (encounteredChars v).

Definition splitOnNewChars (str : jsstring) : list jsstring :=
  arr (fold_left body (codePoints str) (mkVars [] ∅)).

(** A split into groups of characters in which every group starts with a
    character that no earlier group holds and goes on with characters that
    are its first one or are held by earlier groups. *)
Inductive Segmented : list (list jsstring) -> Prop :=
| Segmented_nil : Segmented []
| Segmented_snoc groups char rest :
    Segmented groups ->
    char ∉ concat groups ->
    Forall (fun x => x ∈ char :: concat groups) rest ->
    Segmented (groups ++ [char :: rest]).

(** What the loop keeps true, [seen] being the characters read so far. *)
Definition splitInvariant (seen : list jsstring) (v : Vars) : Prop :=
  exists groups,
    arr v = join <$> groups /\
    concat groups = seen /\
    Segmented groups /\
    encounteredChars v = list_to_set seen /\
    length (arr v) = size (encounteredChars v).

End SplitOnNewChars.

(** ** split-on-new-chars.test.ts *)

Module SplitOnNewCharsTest.










End SplitOnNewCharsTest.

(** ** square-difference-free.ts *)

Module SquareDistance.

(** [class SquareDistance]: the origin and the square root of the distance
    to the destination. *)
Record t : Type := new {
  origin : Z;
  sqrtDist : Z
}.

(** [get dest]. *)
Definition dest (this : t) : Z := (origin this + sqrtDist this ^ 2)%Z.

Definition next (this : t) : t := new (origin this) (sqrtDist this + 1).

End SquareDistance.

Module SquareDifferenceFree.

(** One run of the body of the inner loop (lines 45-51) on the map
    [destToDistances]. *)
Definition inner (dest : Z) (destToDistances : gmap Z (list SquareDistance.t))
    (distance : SquareDistance.t) : outcome (gmap Z (list SquareDistance.t)) :=
  _ ← assert (bool_decide (dest = SquareDistance.dest distance));
  let nextDistance := SquareDistance.next distance in
  let nextDest := SquareDistance.dest nextDistance in
  let destToDistances :=
    if negb (bool_decide (is_Some (destToDistances !! nextDest)))
    then <[nextDest := []]> destToDistances
    else destToDistances in
  Return (alter (fun distances => distances ++ [nextDistance]) nextDest
            destToDistances).

(** One round of the outer loop (lines 39-57) for the given [dest]: the
    value it yields, if it yields one, and the map it leaves.  The inner
    loop walks the array stored under [dest] while arrays stored under
    [nextDest] grow; once the assertion of line 45 has passed, [nextDest]
    is [dest + 2 * sqrtDist + 1], never [dest], so the walked array is the
    one found at the start of the loop. *)
Definition round (dest : Z) (destToDistances : gmap Z (list SquareDistance.t))
    : outcome (option Z * gmap Z (list SquareDistance.t)) :=
  let '(yielded, destToDistances) :=
    if negb (bool_decide (is_Some (destToDistances !! dest)))
    then (Some dest, <[dest := [SquareDistance.new dest 0]]> destToDistances)
    else (None, destToDistances) in
  match destToDistances !! dest with
  | None => Throw TypeError
  | Some distances =>
      destToDistances ← forOf (inner dest) destToDistances distances;
      _ ← assert (bool_decide (is_Some (destToDistances !! dest)));
      Return (yielded, delete dest destToDistances)
  end.

(** The first [rounds] rounds of the outer loop, from the given [dest] on:
    the values yielded, in order, and the map left. *)
Fixpoint rounds (n : nat) (dest : Z) (destToDistances : gmap Z (list SquareDistance.t))
    : outcome (list Z * gmap Z (list SquareDistance.t)) :=
  match n with
  | 0 => Return ([], destToDistances)
  | S n' =>
      '(yielded, destToDistances) ← round dest destToDistances;
      '(more, destToDistances) ← rounds n' (dest + 1) destToDistances;
      Return (option_list yielded ++ more, destToDistances)
  end.

(** What the generator yields while [dest] is below [n]. *)
Definition squareDifferenceFree (n : nat) : outcome (list Z) :=
  '(yielded, _) ← rounds n 0 ∅;
  Return yielded.

(** The distances stored under [dest]; none when there is no entry. *)
Definition entries (destToDistances : gmap Z (list SquareDistance.t)) (dest : Z)
    : list SquareDistance.t :=
  default [] (destToDistances !! dest).

(** [yielded] is the square-difference-free sequence below [bound]: a
    natural number below [bound] is in it exactly when it is not a positive
    perfect square away from a member. *)
Definition Greedy (bound : Z) (yielded : list Z) : Prop :=
  forall z,
    z ∈ yielded <->
    (0 <= z < bound)%Z /\
    ~ exists o s, o ∈ yielded /\ (0 < s)%Z /\ (o + s ^ 2)%Z = z.

(** What holds of the map before the round for [dest]: an entry is never
    empty, and the distances stored are, for each member [o] yielded so far,
    the one distance from [o] to the first destination not below [dest]. *)
Definition mapInvariant (dest : Z) (yielded : list Z)
    (destToDistances : gmap Z (list SquareDistance.t)) : Prop :=
  (forall k l, destToDistances !! k = Some l -> l <> []) /\
  (forall k x,
     x ∈ entries destToDistances k <->
     SquareDistance.origin x ∈ yielded /\
     (0 < SquareDistance.sqrtDist x)%Z /\
     SquareDistance.dest x = k /\
     (dest <= k)%Z /\
     (SquareDistance.origin x + (SquareDistance.sqrtDist x - 1) ^ 2 < dest)%Z).

(** The numbers a positive perfect square [s ^ 2], [s] up to [smax], above
    a natural number below [n]. *)
Definition squaresAbove (n smax : nat) : list Z :=
  (fun os : Z * Z => (os.1 + os.2 ^ 2)%Z)
    <$> list_prod (seqZ 0 (Z.of_nat n)) (seqZ 1 (Z.of_nat smax)).

End SquareDifferenceFree.


(** * Facts *)

(** ** Code points *)

Lemma codePoints_two_step (P : list N -> Prop) :
  P [] -> (forall u, P [u]) ->
  (forall u v s, P s -> P (v :: s) -> P (u :: v :: s)) ->
  forall s, P s.
Proof.
  intros Hnil Hone Hstep s.
  assert (P s /\ forall u, P (u :: s)) as [? _]; [|done].
  induction s as [|v s [IH1 IH2]]; [by split|].
  split; [apply IH2|]. intros u. by apply Hstep.
Qed.

(** A unit that is no trailing surrogate starts a code point of its own,
    whatever stands before it. *)
Lemma codePoints_app_cons s z t :
  isTrailingSurrogate z = false ->
  codePoints (s ++ z :: t) = codePoints s ++ codePoints (z :: t).
Proof.
  intros Hz. induction s as [|u|u v s IH1 IH2] using codePoints_two_step.
  - done.
  - change (codePoints ([u] ++ z :: t)) with
      (if isLeadingSurrogate u && isTrailingSurrogate z
       then [u; z] :: codePoints t else [u] :: codePoints (z :: t)).
    by rewrite Hz, andb_false_r.
  - change (codePoints ((u :: v :: s) ++ z :: t)) with
      (if isLeadingSurrogate u && isTrailingSurrogate v
       then [u; v] :: codePoints (s ++ z :: t)
       else [u] :: codePoints ((v :: s) ++ z :: t)).
    rewrite IH1, IH2. simpl. by destruct (_ && _).
Qed.

Lemma codePoints_cons u s :
  isLeadingSurrogate u = false -> codePoints (u :: s) = [u] :: codePoints s.
Proof. intros Hu. destruct s as [|v s]; simpl; [done|]. by rewrite Hu. Qed.

Lemma join_codePoints s : join (codePoints s) = s.
Proof.
  induction s as [|u|u v s IH1 IH2] using codePoints_two_step; [done..|].
  unfold join in *. simpl in *. destruct (_ && _); simpl; by rewrite ?IH1, ?IH2.
Qed.

Lemma codePoints_units s char u : char ∈ codePoints s -> u ∈ char -> u ∈ s.
Proof.
  intros Hchar Hu. rewrite <- (join_codePoints s).
  apply list_elem_of_In, in_concat. exists char.
  by split; apply list_elem_of_In.
Qed.

(** ** The loop of [extractStrings] *)

Lemma isSingleQuote_true char : isSingleQuote char = true <-> char = testedChar.
Proof. unfold isSingleQuote, stringEquals. apply bool_decide_eq_true. Qed.

Lemma codePoints_untested s :
  34%N ∉ s -> Forall (fun char => isSingleQuote char = false) (codePoints s).
Proof.
  intros Hs. apply Forall_forall. intros char Hin.
  apply not_true_is_false. intros ->%isSingleQuote_true.
  apply Hs, (codePoints_units _ _ _ Hin). by apply list_elem_of_singleton.
Qed.

Lemma forLoop_app v chars chars' :
  forLoop v (chars ++ chars') = forLoop (forLoop v chars) chars'.
Proof. apply fold_left_app. Qed.

Lemma forLoop_outside es chars :
  Forall (fun char => isSingleQuote char = false) chars ->
  forLoop (mkVars es outside) chars = mkVars es outside.
Proof.
  induction 1 as [|char chars Hc _ IH]; [done|].
  unfold forLoop in *. simpl. unfold body at 2. simpl. by rewrite Hc.
Qed.

Lemma codePoints_sentinel text :
  codePoints (concatStrings text sentinel) = codePoints text ++ [sentinel].
Proof. by apply codePoints_app_cons. Qed.

(** Strings once pushed to [extractedStrings] stay where they are. *)
Lemma extractedStrings_prefix v chars :
  extractedStrings v `prefix_of` extractedStrings (forLoop v chars).
Proof.
  revert v. induction chars as [|char chars IH]; intros v; [done|].
  unfold forLoop in *. simpl. etrans; [|apply IH].
  unfold body. destruct (state v), (isSingleQuote char); simpl; try done.
  by apply prefix_app_r.
Qed.

Lemma finish_last v char :
  isSingleQuote char = false -> finish (forLoop v [char]) = settle v.
Proof.
  intros Hc. destruct v as [es [|parsed|parsed]];
    unfold forLoop, settle, finish, body; simpl; by rewrite Hc.
Qed.

Lemma finish_cases v :
  (state v = outside /\ finish v = Returned (extractedStrings v)) \/
  (state v <> outside /\ finish v = Thrown "Unmatched single quote").
Proof. unfold finish. destruct (state v); [left|right..]; by split. Qed.

(** Where the code units of the strings held by the variables come from. *)
Section Units.

Variable P : N -> Prop.
Hypothesis pushed : P 39%N.

Lemma join_units parts : Forall (Forall P) parts -> Forall P (join parts).
Proof.
  unfold join. induction 1 as [|part parts Hpart _ IH]; simpl; [done|].
  by apply Forall_app.
Qed.

Lemma body_units v char :
  unitsOfVars P v -> Forall P char -> unitsOfVars P (body v char).
Proof.
  destruct v as [es st]. unfold unitsOfVars, body. simpl.
  intros [Hes Hst] Hchar.
  destruct st as [|parsed|parsed], (isSingleQuote char); simpl;
    repeat split; try done.
  - apply Forall_app. by repeat constructor.
  - apply Forall_app. by repeat constructor.
  - apply Forall_app. split; [done|]. constructor; [|done].
    by apply join_units.
Qed.

Lemma forLoop_units v chars :
  unitsOfVars P v -> Forall (Forall P) chars -> unitsOfVars P (forLoop v chars).
Proof.
  intros Hv Hchars. revert v Hv.
  induction Hchars as [|char chars Hchar _ IH]; intros v Hv; [done|].
  apply IH. by apply body_units.
Qed.

Lemma codePoints_Forall s : Forall P s -> Forall (Forall P) (codePoints s).
Proof.
  intros Hs. apply Forall_forall. intros char Hchar.
  apply Forall_forall. intros u Hu.
  rewrite Forall_forall in Hs. by apply Hs, (codePoints_units _ char).
Qed.

Lemma settle_units v strings :
  unitsOfVars P v -> settle v = Returned strings -> Forall (Forall P) strings.
Proof.
  destruct v as [es st]. unfold unitsOfVars, settle. simpl.
  intros [Hes Hst]. destruct st as [|parsed|parsed]; intros Heq;
    [|done|]; injection Heq as <-; [done|].
  apply Forall_app. split; [done|]. constructor; [|done].
  by apply join_units.
Qed.

End Units.

Lemma extractStrings_settle text :
  extractStrings text = settle (forLoop initial (codePoints text)).
Proof.
  unfold extractStrings. rewrite codePoints_sentinel, forLoop_app.
  by apply finish_last.
Qed.

(** ** What [extractStrings] does with single quotes

    The documentation, the name [isSingleQuote], the message of the error and
    the tests all speak of the single quote (U+0027) as the delimiter; the
    comparison on line 52 is with the double quote (U+0022).  The facts of
    this part evaluate the function where the two differ. *)

(** C1, round-trip construction: the text the property test builds from the
    one string [abc] with empty first and last portions is ['abc'], which the
    generator lets through, and [extractStrings] returns the empty list for it
    where the claim asks for [[abc]]. *)
Theorem C1_roundtrip_diverges :
  admissible [[]; []] [lit "abc"] /\
  textOf [[]; []] [lit "abc"] = lit "'abc'" /\
  extractStrings (textOf [[]; []] [lit "abc"]) = Returned [] /\
  extractStrings (textOf [[]; []] [lit "abc"]) <> Returned [lit "abc"].
Proof.
  split; [|by repeat split].
  split; [done|]. split.
  - repeat constructor; apply not_elem_of_nil.
  - intros [|[|i]] s Hs; simpl; [by left|by right; left|done].
Qed.

(** C2, per-character transition rules with the single quote as delimiter:
    a single quote seen in state [outside] leaves the state [outside], seen
    [inside] it is pushed as an ordinary character, and seen in [transition]
    it closes the literal; the rules the claim gives for the single quote
    are the ones the loop body follows for the double quote. *)
Theorem C2_single_quote_steps (es parsed : list jsstring) :
  body (mkVars es outside) (lit "'") = mkVars es outside /\
  body (mkVars es (inside parsed)) (lit "'")
    = mkVars es (inside (parsed ++ [lit "'"])) /\
  body (mkVars es (transition parsed)) (lit "'")
    = mkVars (es ++ [join parsed]) outside /\
  body (mkVars es outside) testedChar = mkVars es (inside []) /\
  body (mkVars es (inside parsed)) testedChar = mkVars es (transition parsed) /\
  body (mkVars es (transition parsed)) testedChar
    = mkVars es (inside (parsed ++ [lit "'"])).
Proof. by repeat split. Qed.

(** C3, unbalanced-input failure: each of the five texts the claim lists has
    an odd number of single quotes, and for each of them [extractStrings]
    returns the empty list instead of throwing. *)
Theorem C3_odd_single_quotes_returned :
  Forall (fun text =>
            Nat.odd (occurrences 39 text) = true /\
            extractStrings text = Returned [])
    [lit "'"; lit "'abc"; lit "abc'"; lit "a'b'c'd"; lit "'''abc'''def'''"].
Proof. by repeat constructor. Qed.

(** C4, adjacent literals merge: for the six-character text ['a''b']
    [extractStrings] returns the empty list, neither [[a'b]] nor [[a; b]]. *)
Theorem C4_adjacent_literals_returned_empty :
  extractStrings (lit "'a''b'") = Returned [] /\
  extractStrings (lit "'a''b'") <> Returned [lit "a'b"].
Proof. by split. Qed.

(** C6, delimiter-free input: the empty text and [hello world] give the empty
    list, but the text made of one double quote, which holds no single quote,
    makes [extractStrings] throw. *)
Theorem C6_no_single_quote_thrown :
  extractStrings [] = Returned [] /\
  extractStrings (lit "hello world") = Returned [] /\
  (39%N ∉ [34%N]) /\
  extractStrings [34%N] = Thrown "Unmatched single quote".
Proof.
  repeat split. by intros ?%list_elem_of_singleton.
Qed.

(** ** What holds of [extractStrings] as it is written *)

(** C5, raises-iff and atomicity: a call throws exactly when the state after
    the loop over the text and the appended character is not [outside]; the
    only error is the one with the message of line 98; a call that returns
    gives the whole list [extractedStrings], and that list holds, in order
    and from its start, the strings pushed at every earlier point of the
    loop. *)
Theorem C5_throws_iff_not_outside (text : jsstring) :
  ((exists message, extractStrings text = Thrown message)
     <-> state (finalVars text) <> outside) /\
  (forall message,
     extractStrings text = Thrown message -> message = "Unmatched single quote") /\
  (forall strings,
     extractStrings text = Returned strings ->
     strings = extractedStrings (finalVars text)) /\
  (state (finalVars text) = outside ->
     extractStrings text = Returned (extractedStrings (finalVars text))) /\
  (forall chars chars',
     codePoints (concatStrings text sentinel) = chars ++ chars' ->
     extractedStrings (forLoop initial chars)
       `prefix_of` extractedStrings (finalVars text)).
Proof.
  assert (forall chars chars',
             codePoints (concatStrings text sentinel) = chars ++ chars' ->
             extractedStrings (forLoop initial chars)
               `prefix_of` extractedStrings (finalVars text)) as Hprefix.
  { intros chars chars' Hsplit. unfold finalVars.
    rewrite Hsplit, forLoop_app. apply extractedStrings_prefix. }
  change (extractStrings text) with (finish (finalVars text)).
  destruct (finish_cases (finalVars text)) as [[Hst ->]|[Hst ->]].
  - split; [split; [by intros [? ?]|by intros ?]|].
    split; [done|]. split; [congruence|]. by split.
  - split; [split; [done|by eexists]|].
    split; [congruence|]. split; [done|]. by split.
Qed.

Lemma C5_throws_iff_not_outside_witness :
  extractStrings ([34%N] ++ lit "a" ++ [34%N])
  = Returned (extractedStrings (finalVars ([34%N] ++ lit "a" ++ [34%N]))).
Proof.
  apply (C5_throws_iff_not_outside ([34%N] ++ lit "a" ++ [34%N])).
  reflexivity.
Defined.

(** C7, sentinel containment: the appended character is not the character
    the loop tests for; the outcome of a call is fixed by the variables
    reached at the end of the text itself, every returned string being
    complete, or held whole in [parsed], before the appended character is
    read; any other untested character appended in its place gives the
    same outcome; and every code unit of a returned string is a code unit of
    the text itself or the single quote pushed on line 79. *)
Theorem C7_sentinel_contained :
  sentinel <> testedChar /\
  isSingleQuote sentinel = false /\
  (forall text,
     extractStrings text = settle (forLoop initial (codePoints text))) /\
  (forall text char,
     isSingleQuote char = false ->
     finish (forLoop initial (codePoints text ++ [char])) = extractStrings text) /\
  (forall text strings,
     extractStrings text = Returned strings ->
     Forall (Forall (fun u => u ∈ text \/ u = 39%N)) strings).
Proof.
  split; [done|]. split; [done|]. split; [apply extractStrings_settle|].
  split.
  - intros text char Hchar.
    rewrite extractStrings_settle, forLoop_app. by apply finish_last.
  - intros text strings. rewrite extractStrings_settle.
    set (P := fun u => u ∈ text \/ u = 39%N).
    assert (P 39%N) as pushed by by right.
    apply (settle_units P), (forLoop_units P pushed); [by split|].
    apply codePoints_Forall, Forall_forall. by left.
Qed.

Lemma C7_sentinel_contained_witness :
  finish (forLoop initial (codePoints ([34%N] ++ lit "a*" ++ [34%N]) ++ [lit "#"]))
  = extractStrings ([34%N] ++ lit "a*" ++ [34%N]).
Proof.
  apply (proj1 (proj2 (proj2 (proj2 C7_sentinel_contained)))). reflexivity.
Defined.

(** C8: a text that holds no double quote makes [extractStrings] return the
    empty list, however many single quotes it holds. *)
Theorem C8_no_double_quote_returns_empty (text : jsstring) :
  34%N ∉ text -> extractStrings text = Returned [].
Proof.
  intros Htext. unfold extractStrings. rewrite codePoints_sentinel.
  unfold initial. rewrite forLoop_outside; [done|].
  apply Forall_app. split; [by apply codePoints_untested|].
  by repeat constructor.
Qed.

Lemma C8_no_double_quote_returns_empty_witness :
  extractStrings (lit "'abc'") = Returned [].
Proof.
  apply C8_no_double_quote_returns_empty.
  apply (bool_decide_unpack _). exact I.
Defined.

(** C9: two tested characters in a row inside an open literal push the
    single quote of line 79 to [parsed], in one run of the loop body pair
    and in the loop over any text that has the pair after a prefix that
    leaves the state [inside]; the text double quote, a, double quote, double
    quote, b, double quote gives [[a'b]]. *)
Theorem C9_escaped_pair_pushes_single_quote :
  (forall es parsed char1 char2,
     isSingleQuote char1 = true -> isSingleQuote char2 = true ->
     forLoop (mkVars es (inside parsed)) [char1; char2]
     = mkVars es (inside (parsed ++ [lit "'"]))) /\
  (forall before after es parsed,
     forLoop initial (codePoints before) = mkVars es (inside parsed) ->
     forLoop initial (codePoints (before ++ [34%N; 34%N] ++ after))
     = forLoop (mkVars es (inside (parsed ++ [lit "'"]))) (codePoints after)) /\
  extractStrings ([34%N] ++ lit "a" ++ [34%N; 34%N] ++ lit "b" ++ [34%N])
  = Returned [lit "a'b"].
Proof.
  split; [|split; [|done]].
  - intros es parsed char1 char2 H1 H2. unfold forLoop, body. simpl.
    rewrite H1. simpl. by rewrite H2.
  - intros before after es parsed Hbefore.
    change (before ++ [34%N; 34%N] ++ after)
      with (before ++ 34%N :: 34%N :: after).
    rewrite codePoints_app_cons by done.
    rewrite !codePoints_cons by done.
    rewrite forLoop_app, Hbefore. done.
Qed.

Lemma C9_escaped_pair_pushes_single_quote_witness :
  forLoop (mkVars [] (inside [lit "a"])) [testedChar; testedChar]
  = mkVars [] (inside ([lit "a"] ++ [lit "'"])).
Proof.
  apply (proj1 C9_escaped_pair_pushes_single_quote); reflexivity.
Defined.

(** ** [subsequence_indices] *)

Lemma ascendingFrom_weaken lo lo' l :
  lo' <= lo -> ascendingFrom lo l -> ascendingFrom lo' l.
Proof.
  destruct l as [|i l]; simpl; [done|]. intros ? [? ?]. split; [lia|done].
Qed.

Lemma ascendingFrom_succ lo l :
  ascendingFrom lo l -> ascendingFrom (S lo) (S <$> l).
Proof.
  revert lo. induction l as [|i l IH]; intros lo; [done|].
  rewrite fmap_cons. simpl. intros [? ?]. split; [lia|]. by apply IH.
Qed.

Lemma ascendingFrom_lower lo l : ascendingFrom lo l -> Forall (le lo) l.
Proof.
  revert lo. induction l as [|i l IH]; intros lo; simpl; [constructor|].
  intros [Hlo Hl]. constructor; [done|].
  apply IH. by apply (ascendingFrom_weaken (S i)); [lia|].
Qed.

Lemma ascendingFrom_strictlyAscending lo l :
  ascendingFrom lo l -> strictlyAscending l.
Proof.
  revert lo. induction l as [|i l IH]; intros lo.
  - intros _ j k a b Hj. by rewrite lookup_nil in Hj.
  - simpl. intros [Hlo Hl] j k a b Hj Hk Hjk.
    destruct k as [|k]; [lia|]. simpl in Hk.
    destruct j as [|j]; simpl in Hj.
    + injection Hj as <-.
      pose proof (ascendingFrom_lower _ _ Hl) as Hall.
      rewrite Forall_lookup in Hall. specialize (Hall _ _ Hk). simpl in Hall. lia.
    + apply (IH _ Hl j k); [done|done|lia].
Qed.

Lemma strictlyAscending_ascendingFrom lo l :
  strictlyAscending l -> Forall (le lo) l -> ascendingFrom lo l.
Proof.
  revert lo. induction l as [|i l IH]; intros lo Hasc Hlo; simpl; [done|].
  apply Forall_cons in Hlo as [Hi Hlo]. split; [done|].
  apply IH.
  - intros j k a b Hj Hk Hjk. apply (Hasc (S j) (S k)); [done|done|lia].
  - apply Forall_lookup. intros k b Hk.
    assert (i < b); [|lia]. apply (Hasc 0 (S k)); [done|done|lia].
Qed.

Lemma reachedEndOfList_true {A} (l : list A) i :
  reachedEndOfList l i = true -> i = length l.
Proof. unfold reachedEndOfList. intros H. by apply bool_decide_eq_true in H. Qed.

Lemma reachedEndOfList_false {A} (l : list A) i :
  i <= length l -> reachedEndOfList l i = false -> exists x, l !! i = Some x.
Proof.
  unfold reachedEndOfList. intros Hle Hne. apply bool_decide_eq_false in Hne.
  apply lookup_lt_is_Some. lia.
Qed.

Section SubsequenceIndicesFacts.

Context {T : Type} (strictEquals : T -> T -> bool).

(** What the loop returns extends [indices] by ascending indices, none below
    [arrIndex], that select the rest of [sub] from [arr]. *)
Lemma whileTrue_sound arr sub indices ai si (H : ai <= length arr) :
  si <= length sub ->
  forall res, whileTrue strictEquals arr sub indices ai si H = Some res ->
  exists ext,
    res = indices ++ ext /\ ascendingFrom ai ext /\
    selects strictEquals arr ext (drop si sub).
Proof.
  funelim (whileTrue strictEquals arr sub indices ai si H);
    intros Hsi res Hres.
  - injection Hres as <-. exists []. rewrite app_nil_r.
    split; [done|]. split; [done|].
    rewrite (reachedEndOfList_true _ _ e), drop_all. constructor.
  - discriminate.
  - destruct (reachedEndOfList_false sub subIndex Hsi e) as [y Hy].
    destruct (reachedEndOfList_false arr arrIndex bound notAtEnd) as [x Hx].
    unfold at_ in Heq. rewrite Hx, Hy in Heq. simpl in Heq.
    apply lookup_lt_Some in Hy as Hlt.
    destruct (H Hlt res Hres) as (ext & -> & Hasc & Hsel).
    exists (arrIndex :: ext). rewrite <- app_assoc. split; [done|].
    split; [by split|].
    rewrite (drop_S _ _ _ Hy). constructor; [|done]. by exists x.
  - destruct (H Hsi res Hres) as (ext & -> & Hasc & Hsel).
    exists ext. split; [done|]. split; [|done].
    by apply (ascendingFrom_weaken (S arrIndex)); [lia|].
Qed.

(** When the loop returns [null], no ascending indices from [arrIndex] on
    select the rest of [sub]. *)
Lemma whileTrue_complete arr sub indices ai si (H : ai <= length arr) :
  si <= length sub ->
  whileTrue strictEquals arr sub indices ai si H = None ->
  forall js,
    ascendingFrom ai js -> selects strictEquals arr js (drop si sub) -> False.
Proof.
  funelim (whileTrue strictEquals arr sub indices ai si H);
    intros Hsi Hres js Hasc Hsel.
  - discriminate.
  - destruct (reachedEndOfList_false sub subIndex Hsi e) as [y Hy].
    rewrite (drop_S _ _ _ Hy) in Hsel.
    apply Forall2_cons_inv_r in Hsel as (j & js' & (x & Hx & _) & _ & ->).
    destruct Hasc as [Hj _]. apply lookup_lt_Some in Hx.
    apply reachedEndOfList_true in e0 as Hend. lia.
  - destruct (reachedEndOfList_false sub subIndex Hsi e) as [y Hy].
    apply lookup_lt_Some in Hy as Hlt.
    rewrite (drop_S _ _ _ Hy) in Hsel.
    apply Forall2_cons_inv_r in Hsel as (j & js' & _ & Hsel & ->).
    destruct Hasc as [Hj Hasc].
    apply (H Hlt Hres js'); [|done].
    by apply (ascendingFrom_weaken (S j)); [lia|].
  - destruct (reachedEndOfList_false sub subIndex Hsi e) as [y Hy].
    destruct (reachedEndOfList_false arr arrIndex bound notAtEnd) as [x Hx].
    unfold at_ in Heq. rewrite Hx, Hy in Heq. simpl in Heq.
    apply (H Hsi Hres js); [|done].
    rewrite (drop_S _ _ _ Hy) in Hsel.
    apply Forall2_cons_inv_r in Hsel as (j & js' & (x' & Hx' & Heq') & Hsel & ->).
    destruct Hasc as [Hj Hasc]. split; [|done].
    destruct (decide (j = arrIndex)) as [->|]; [|lia].
    congruence.
Qed.

Lemma subsequence_indices_sound arr sub indices :
  subsequence_indices strictEquals arr sub = Some indices ->
  ascendingFrom 0 indices /\ selects strictEquals arr indices sub.
Proof.
  unfold subsequence_indices. intros Hrun.
  apply whileTrue_sound in Hrun as (ext & -> & Hasc & Hsel); [|lia].
  by rewrite drop_0 in Hsel.
Qed.

Lemma subsequence_indices_complete arr sub js :
  subsequence_indices strictEquals arr sub = None ->
  ascendingFrom 0 js -> selects strictEquals arr js sub -> False.
Proof.
  unfold subsequence_indices. intros Hrun Hasc Hsel.
  apply (whileTrue_complete _ _ _ _ _ _ (Nat.le_0_l _) Hrun js Hasc).
  by rewrite drop_0.
Qed.

Lemma selects_in_bounds arr indices sub :
  selects strictEquals arr indices sub ->
  Forall (fun i => i < length arr) indices.
Proof.
  intros Hsel. apply Forall_lookup. intros k i Hk.
  destruct (Forall2_lookup_l _ _ _ _ _ Hsel Hk) as (y & _ & x & Hx & _).
  by apply lookup_lt_Some in Hx.
Qed.

(** C10: [subsequence_indices(arr, sub)] returns either a strictly ascending
    list of indices, all in bounds of [arr], at which [arr] holds, one by
    one, elements [===] to those of [sub], or [null]; and when it returns
    [null], [sub] does not occur as a subsequence of [arr]. *)
Theorem C10_subsequence_indices_correct (arr sub : list T) :
  match subsequence_indices strictEquals arr sub with
  | Some indices =>
      strictlyAscending indices /\
      Forall (fun i => i < length arr) indices /\
      selects strictEquals arr indices sub
  | None => ~ occursIn strictEquals sub arr
  end.
Proof.
  destruct (subsequence_indices _ _ _) as [indices|] eqn:Hrun.
  - apply subsequence_indices_sound in Hrun as [Hasc Hsel].
    split; [by eapply ascendingFrom_strictlyAscending|].
    split; [by eapply selects_in_bounds|done].
  - intros (js & Hasc & Hsel).
    apply (subsequence_indices_complete _ _ js Hrun); [|done].
    apply strictlyAscending_ascendingFrom; [done|].
    apply Forall_forall. intros; lia.
Qed.

End SubsequenceIndicesFacts.

(** The run-throughs given in the source. *)
Example subsequence_indices_found :
  subsequence_indices N.eqb [3; 1; 4; 1; 5; 9]%N [4; 1; 9]%N = Some [2; 3; 5].
Proof. reflexivity. Qed.

Example subsequence_indices_null :
  subsequence_indices N.eqb [2; 6; 5]%N [2; 4]%N = None.
Proof. reflexivity. Qed.

(** *** Element types on which [===] is identity

    Here [occursIn] is the sublist relation, and the elements read at the
    returned indices are the elements of [sub]. *)

Section SameValue.

Context {T : Type} `{EqDecision T}.

Lemma selects_sameValue (arr : list T) indices sub :
  selects sameValue arr indices sub <->
  (fun i => arr !! i) <$> indices = Some <$> sub.
Proof.
  unfold selects. split.
  - induction 1 as [|i y js sub' (x & Hx & Heq) _ IH]; [done|].
    apply bool_decide_eq_true in Heq as ->. by rewrite !fmap_cons, Hx, IH.
  - revert sub. induction indices as [|i js IH]; intros [|y sub'];
      rewrite ?fmap_cons, ?fmap_nil; intros Heq; try discriminate;
      [constructor|].
    injection Heq as Hi Hrest. constructor; [|by apply IH].
    exists y. split; [done|]. by apply bool_decide_eq_true.
Qed.

Lemma ascendingFrom_sublist (arr : list T) lo js sub :
  ascendingFrom lo js -> selects sameValue arr js sub ->
  sub `sublist_of` drop lo arr.
Proof.
  intros Hasc Hsel. revert lo Hasc.
  induction Hsel as [|j y js sub' (x & Hx & Heq) _ IH]; intros lo Hasc.
  - apply sublist_nil_l.
  - destruct Hasc as [Hlo Hasc]. apply bool_decide_eq_true in Heq as ->.
    rewrite <- (take_drop (j - lo) (drop lo arr)), drop_drop.
    replace (lo + (j - lo)) with j by lia. rewrite (drop_S _ _ _ Hx).
    by apply sublist_inserts_l, sublist_skip, IH.
Qed.

Lemma sublist_ascendingFrom (arr sub : list T) :
  sub `sublist_of` arr ->
  exists js, ascendingFrom 0 js /\ selects sameValue arr js sub.
Proof.
  induction 1 as [|x sub' arr' _ (js & Hasc & Hsel)|x sub' arr' _ (js & Hasc & Hsel)].
  - exists []. split; [done|constructor].
  - exists (0 :: (S <$> js)). split.
    + split; [done|]. by apply ascendingFrom_succ.
    + constructor.
      * exists x. split; [done|]. by apply bool_decide_eq_true.
      * by apply Forall2_fmap_l.
  - exists (S <$> js). split.
    + apply (ascendingFrom_weaken 1); [lia|]. by apply ascendingFrom_succ.
    + by apply Forall2_fmap_l.
Qed.

Lemma occursIn_sublist (arr sub : list T) :
  occursIn sameValue sub arr <-> sub `sublist_of` arr.
Proof.
  split.
  - intros (js & Hasc & Hsel). rewrite <- (drop_0 arr).
    apply (ascendingFrom_sublist _ _ js); [|done].
    apply strictlyAscending_ascendingFrom; [done|].
    apply Forall_forall. intros; lia.
  - intros (js & Hasc & Hsel)%sublist_ascendingFrom.
    exists js. split; [by eapply ascendingFrom_strictlyAscending|done].
Qed.

(** X15. On such an element type the call returns [null] exactly when [sub] is
    no sublist of [arr], and the elements of [arr] at the returned indices
    are the elements of [sub]. *)
Lemma subsequence_indices_sublist (arr sub : list T) :
  match subsequence_indices sameValue arr sub with
  | Some indices =>
      strictlyAscending indices /\
      (fun i => arr !! i) <$> indices = Some <$> sub /\
      sub `sublist_of` arr
  | None => ~ sub `sublist_of` arr
  end.
Proof.
  destruct (subsequence_indices _ _ _) as [indices|] eqn:Hrun.
  - apply subsequence_indices_sound in Hrun as [Hasc Hsel].
    split; [by eapply ascendingFrom_strictlyAscending|].
    split; [by apply selects_sameValue|].
    rewrite <- (drop_0 arr). by apply (ascendingFrom_sublist _ _ indices).
  - intros (js & Hasc & Hsel)%sublist_ascendingFrom.
    by apply (subsequence_indices_complete _ _ _ js Hrun).
Qed.

End SameValue.

(** ** More on [extractStrings] *)

Module ExtractStringsShapeFacts.

Import ExtractStringsShape.

Lemma body_parity v char :
  stateParity (state (body v char))
  = xorb (stateParity (state v)) (isSingleQuote char).
Proof.
  destruct v as [es [|parsed|parsed]]; unfold body; simpl;
    by destruct (isSingleQuote char).
Qed.

Lemma forLoop_parity v chars :
  stateParity (state (forLoop v chars))
  = xorb (stateParity (state v)) (Nat.odd (testedAmong chars)).
Proof.
  revert v. induction chars as [|char chars IH]; intros v.
  - simpl. by rewrite xorb_false_r.
  - unfold forLoop in *. simpl. rewrite IH, body_parity.
    unfold testedAmong. rewrite filter_cons.
    unfold isSingleQuote, stringEquals.
    destruct (decide (char = testedChar)) as [->|Hne].
    + rewrite bool_decide_eq_true_2 by done. simpl length.
      rewrite Nat.odd_succ, <- Nat.negb_odd.
      by destruct (stateParity _), (Nat.odd _).
    + rewrite bool_decide_eq_false_2 by done.
      by destruct (stateParity _), (Nat.odd _).
Qed.

Lemma occurrences_cons w u s :
  occurrences w (u :: s) = occurrences w [u] + occurrences w s.
Proof.
  unfold occurrences, jsstring. change (u :: s) with ([u] ++ s).
  by rewrite filter_app, length_app.
Qed.

Lemma testedAmong_single u chars :
  testedAmong ([u] :: chars) = occurrences 34 [u] + testedAmong chars.
Proof.
  unfold testedAmong, occurrences, jsstring. rewrite !filter_cons, filter_nil.
  unfold testedChar. destruct (decide (u = 34%N)) as [->|Hu].
  - by rewrite decide_True.
  - rewrite decide_False; [done|]. by intros [= ?].
Qed.

Lemma testedAmong_pair u v chars :
  testedAmong ([u; v] :: chars) = testedAmong chars.
Proof. unfold testedAmong. by rewrite filter_cons, decide_False. Qed.

Lemma occurrences_surrogate u :
  isLeadingSurrogate u || isTrailingSurrogate u = true ->
  occurrences 34 [u] = 0.
Proof.
  intros Hu. unfold occurrences, jsstring.
  rewrite filter_cons, decide_False; [done|].
  by intros ->.
Qed.

Lemma testedAmong_codePoints s : testedAmong (codePoints s) = occurrences 34 s.
Proof.
  induction s as [|u|u v s IH1 IH2] using codePoints_two_step.
  - done.
  - change (codePoints [u]) with [[u]]. rewrite testedAmong_single.
    change (testedAmong []) with 0. lia.
  - change (codePoints (u :: v :: s)) with
      (if isLeadingSurrogate u && isTrailingSurrogate v
       then [u; v] :: codePoints s else [u] :: codePoints (v :: s)).
    destruct (isLeadingSurrogate u && isTrailingSurrogate v) eqn:Hpair.
    + apply andb_true_iff in Hpair as [Hu Hv].
      rewrite testedAmong_pair, IH1.
      rewrite (occurrences_cons _ u (v :: s)), (occurrences_cons _ v s).
      rewrite !occurrences_surrogate; [done|by rewrite Hv, orb_true_r|by rewrite Hu].
    + by rewrite testedAmong_single, IH2, (occurrences_cons _ u (v :: s)).
Qed.

(** X18. [extractStrings] throws exactly when the text holds an odd number of
    double quotes (U+0022), the character line 52 tests for. *)
Theorem extractStrings_throws_iff_odd (text : jsstring) :
  (exists message, extractStrings text = Thrown message)
  <-> Nat.odd (occurrences 34 text) = true.
Proof.
  rewrite extractStrings_settle, <- testedAmong_codePoints.
  pose proof (forLoop_parity initial (codePoints text)) as Hpar.
  simpl in Hpar. rewrite <- Hpar. unfold settle.
  destruct (state _); simpl; (split; [intros [? ?]|intros ?]);
    first [done|by eexists].
Qed.

Lemma codePoints_around_tested a b :
  codePoints (a ++ 34%N :: b) = codePoints a ++ testedChar :: codePoints b.
Proof. by rewrite codePoints_app_cons, codePoints_cons. Qed.

Lemma forLoop_inside es parsed chars :
  Forall (fun char => isSingleQuote char = false) chars ->
  forLoop (mkVars es (inside parsed)) chars = mkVars es (inside (parsed ++ chars)).
Proof.
  intros Hchars. revert parsed.
  induction Hchars as [|char chars Hc _ IH]; intros parsed.
  - by rewrite app_nil_r.
  - unfold forLoop in *. simpl. unfold body at 2. simpl. rewrite Hc, IH.
    by rewrite <- app_assoc.
Qed.

Lemma codePoints_nil_inv s : codePoints s = [] -> s = [].
Proof. destruct s as [|u [|v s]]; simpl; [done..|]. by destruct (_ && _). Qed.

(** A portion without double quotes takes the loop to [outside], closing
    the literal whose closing quote was pending, when the portion is not
    empty. *)
Lemma forLoop_portion v p :
  34%N ∉ p ->
  (p <> [] \/ state v = outside) ->
  (exists parsed, state v = inside parsed) \/
  forLoop v (codePoints p) = mkVars (closed v) outside.
Proof.
  intros Hp Hne. destruct v as [es [|parsed|parsed]]; [right|left|right].
  - by apply forLoop_outside, codePoints_untested.
  - by eexists.
  - destruct Hne as [Hne|?]; [|done].
    pose proof (codePoints_untested p Hp) as Hchars.
    destruct (codePoints p) as [|char chars] eqn:Hcp.
    { by apply codePoints_nil_inv in Hcp. }
    apply Forall_cons in Hchars as [Hc Hchars].
    unfold forLoop. simpl. unfold body at 2. simpl. rewrite Hc.
    by apply forLoop_outside.
Qed.

Lemma settle_double_quoted strings : forall portions v,
  (forall parsed, state v <> inside parsed) ->
  length portions = length strings + 1 ->
  Forall (fun p => 34%N ∉ p) portions ->
  Forall (fun s => 34%N ∉ s) strings ->
  (forall i p, portions !! i = Some p ->
     i = length strings \/ p <> [] \/ (i = 0 /\ state v = outside)) ->
  settle (forLoop v (codePoints (join (roundrobin portions (doubleQuoted <$> strings)))))
  = Returned (closed v ++ strings).
Proof.
  induction strings as [|s strings IH]; intros portions v Hv Hlen Hps Hss Hmid.
  - destruct portions as [|p [|? ?]]; try done. simpl.
    unfold join. simpl. rewrite app_nil_r.
    destruct v as [es [|parsed|parsed]]; [| by destruct (Hv parsed) |].
    + rewrite forLoop_outside by (apply codePoints_untested; by inversion Hps).
      by rewrite app_nil_r.
    + destruct (decide (p = [])) as [->|Hp].
      * simpl. unfold settle, closed. simpl. by rewrite app_nil_r.
      * destruct (forLoop_portion (mkVars es (transition parsed)) p)
          as [[? ?]| ->]; [by inversion Hps|by left|done|].
        by rewrite app_nil_r.
  - destruct portions as [|p portions]; [done|].
    apply Forall_cons in Hps as [Hp Hps]. apply Forall_cons in Hss as [Hs Hss].
    rewrite fmap_cons.
    change (join (roundrobin (p :: portions) (doubleQuoted s :: (doubleQuoted <$> strings))))
      with (p ++ doubleQuoted s ++ join (roundrobin portions (doubleQuoted <$> strings))).
    unfold doubleQuoted.
    change (p ++ ([34%N] ++ s ++ [34%N]) ++ ?rest)
      with (p ++ 34%N :: ((s ++ [34%N]) ++ rest)).
    rewrite <- app_assoc.
    change (p ++ 34%N :: s ++ [34%N] ++ ?rest)
      with (p ++ 34%N :: s ++ 34%N :: rest).
    rewrite codePoints_around_tested, codePoints_around_tested.
    rewrite forLoop_app.
    destruct (forLoop_portion v p Hp) as [[parsed Hin]| ->].
    { destruct (Hmid 0 p eq_refl) as [?|[?|[_ ?]]]; [done|by left|by right]. }
    { by destruct (Hv parsed). }
    change (testedChar :: ?l ++ testedChar :: ?k) with ([testedChar] ++ l ++ [testedChar] ++ k).
    rewrite !forLoop_app.
    change (forLoop (mkVars (closed v) outside) [testedChar])
      with (mkVars (closed v) (inside [])).
    rewrite forLoop_inside by by apply codePoints_untested.
    change (forLoop (mkVars (closed v) (inside ([] ++ codePoints s))) [testedChar])
      with (mkVars (closed v) (transition (codePoints s))).
    rewrite IH; [| done | simpl in *; lia | done | done |].
    + unfold closed at 1. simpl. rewrite join_codePoints.
      by rewrite <- app_assoc.
    + intros i q Hq. destruct (Hmid (S i) q Hq) as [?|[?|[? _]]];
        [left; simpl in *; lia|by right; left|done].
Qed.

(** X19. Strings without double quotes, written in double quotes between
    portions without double quotes, come back as they are, provided the
    portions between two strings are not empty. *)
Theorem extractStrings_double_quoted (portions strings : list jsstring) :
  length portions = length strings + 1 ->
  Forall (fun p => 34%N ∉ p) portions ->
  Forall (fun s => 34%N ∉ s) strings ->
  (forall i p, portions !! i = Some p ->
     i = 0 \/ i = length strings \/ p <> []) ->
  extractStrings (join (roundrobin portions (doubleQuoted <$> strings)))
  = Returned strings.
Proof.
  intros Hlen Hps Hss Hmid. rewrite extractStrings_settle.
  rewrite (settle_double_quoted strings portions initial); [done|done..|].
  intros i p Hp. destruct (Hmid i p Hp) as [->|[?|?]]; [|by left|by right; left].
  right; right. by split.
Qed.

Lemma extractStrings_double_quoted_witness :
  extractStrings
    (join (roundrobin [lit "say "; lit ", then "; []]
             (doubleQuoted <$> [lit "it's"; lit "done"])))
  = Returned [lit "it's"; lit "done"].
Proof.
  apply extractStrings_double_quoted.
  - reflexivity.
  - repeat constructor; apply (bool_decide_unpack _); exact I.
  - repeat constructor; apply (bool_decide_unpack _); exact I.
  - intros [|[|[|i]]] p; simpl; intros [= <-]; auto.
Defined.

End ExtractStringsShapeFacts.

(** ** More on [subsequence_indices] *)

Section Leftmost.

Context {T : Type} (strictEquals : T -> T -> bool).

(** The indices the loop adds are, one by one, at most those of any other
    ascending choice that selects the rest of [sub]. *)
Lemma whileTrue_leftmost arr sub indices ai si (H : ai <= length arr) :
  si <= length sub ->
  forall ext, whileTrue strictEquals arr sub indices ai si H = Some (indices ++ ext) ->
  forall js,
    ascendingFrom ai js -> selects strictEquals arr js (drop si sub) ->
    Forall2 le ext js.
Proof.
  funelim (whileTrue strictEquals arr sub indices ai si H);
    intros Hsi ext Hres js Hasc Hsel.
  - injection Hres as Hres. rewrite <- (app_nil_r indices) in Hres at 1.
    apply app_inv_head in Hres as <-.
    rewrite (reachedEndOfList_true _ _ e), drop_all in Hsel.
    apply Forall2_nil_inv_r in Hsel as ->. constructor.
  - discriminate.
  - destruct (reachedEndOfList_false sub subIndex Hsi e) as [y Hy].
    apply lookup_lt_Some in Hy as Hlt.
    destruct (whileTrue_sound _ _ _ _ _ _ _ Hlt _ Hres) as (ext' & Hext & _).
    rewrite <- app_assoc in Hext. apply app_inv_head in Hext as ->.
    rewrite (drop_S _ _ _ Hy) in Hsel.
    apply Forall2_cons_inv_r in Hsel as (j & js' & _ & Hsel & ->).
    destruct Hasc as [Hj Hasc]. constructor; [done|].
    apply (H Hlt ext'); [by rewrite <- app_assoc| |done].
    by apply (ascendingFrom_weaken (S j)); [lia|].
  - destruct (reachedEndOfList_false sub subIndex Hsi e) as [y Hy].
    destruct (reachedEndOfList_false arr arrIndex bound notAtEnd) as [x Hx].
    unfold at_ in Heq. rewrite Hx, Hy in Heq. simpl in Heq.
    apply (H Hsi ext Hres js); [|done].
    rewrite (drop_S _ _ _ Hy) in Hsel.
    apply Forall2_cons_inv_r in Hsel as (j & js' & (x' & Hx' & Heq') & Hsel & ->).
    destruct Hasc as [Hj Hasc]. split; [|done].
    destruct (decide (j = arrIndex)) as [->|]; [|lia].
    congruence.
Qed.

(** X14. Of all strictly ascending index lists that select [sub] from [arr], the
    returned one is the leftmost: each of its indices is at most the index
    at the same place of any other. *)
Theorem subsequence_indices_leftmost (arr sub : list T) indices js :
  subsequence_indices strictEquals arr sub = Some indices ->
  strictlyAscending js -> selects strictEquals arr js sub ->
  Forall2 le indices js.
Proof.
  unfold subsequence_indices. intros Hrun Hasc Hsel.
  apply (whileTrue_leftmost arr sub [] 0 0 (Nat.le_0_l _)); [lia|done| |].
  - apply strictlyAscending_ascendingFrom; [done|].
    apply Forall_forall. intros; lia.
  - by rewrite drop_0.
Qed.

End Leftmost.

Lemma subsequence_indices_leftmost_witness :
  Forall2 le [0; 1] [0; 2].
Proof.
  apply (subsequence_indices_leftmost N.eqb [1; 2; 2; 1]%N [1; 2]%N [0; 1] [0; 2]).
  - reflexivity.
  - intros [|[|j]] [|[|k]] a b; simpl; intros [= <-] [= <-] ?; lia.
  - repeat constructor; eexists; (split; [reflexivity|reflexivity]).
Defined.

(** ** The property test of [subsequence_indices] *)

Module SubsequenceIndicesTestFacts.

Import SubsequenceIndicesTest.

Lemma filterByMask_sublist {T} (arr : list T) mask :
  filterByMask arr mask `sublist_of` arr.
Proof.
  revert mask. induction arr as [|x arr IH]; intros [|[|] mask]; simpl;
    try apply sublist_nil_l.
  - by apply sublist_skip.
  - by apply sublist_cons.
Qed.

(** X16. Test b: for a list and any selection of its elements, on an element
    type where [===] is identity, the result is a list of indices, not
    [null]. *)
Theorem subsequence_indices_of_selection {T} `{EqDecision T}
    (arr : list T) (ithElementIncluded : list bool) :
  is_Some (subsequence_indices sameValue arr
             (filterByMask arr ithElementIncluded)).
Proof.
  destruct (subsequence_indices sameValue arr _) as [indices|] eqn:Hrun;
    [by eexists|].
  exfalso.
  destruct (sublist_ascendingFrom arr _ (filterByMask_sublist arr ithElementIncluded))
    as (js & Hasc & Hsel).
  by apply (subsequence_indices_complete _ _ _ js Hrun).
Qed.

End SubsequenceIndicesTestFacts.

(** ** Edge cases of [subsequence_indices] *)

Section SubsequenceIndicesEdges.

Context {T : Type} (strictEquals : T -> T -> bool).

Lemma ascendingFrom_length lo bound js :
  ascendingFrom lo js -> Forall (fun j => j < bound) js -> lo + length js <= bound \/ js = [].
Proof.
  revert lo. induction js as [|j js IH]; intros lo Hasc Hbound; [by right|].
  left. destruct Hasc as [Hlo Hasc]. apply Forall_cons in Hbound as [Hj Hbound].
  destruct (IH (S j) Hasc Hbound) as [?| ->]; simpl in *; lia.
Qed.

(** X17. Edge cases: an empty [sub] gives the empty list of indices; as many
    indices are returned as [sub] has elements; and a [sub] longer than
    [arr], in particular a non-empty [sub] with an empty [arr], gives
    [null]. *)
Theorem subsequence_indices_edges (arr sub : list T) :
  subsequence_indices strictEquals arr [] = Some [] /\
  (forall indices,
     subsequence_indices strictEquals arr sub = Some indices ->
     length indices = length sub /\ length sub <= length arr) /\
  (length arr < length sub -> subsequence_indices strictEquals arr sub = None).
Proof.
  assert (forall indices,
            subsequence_indices strictEquals arr sub = Some indices ->
            length indices = length sub /\ length sub <= length arr) as Hlen.
  { intros indices Hrun.
    apply subsequence_indices_sound in Hrun as [Hasc Hsel].
    pose proof (Forall2_length _ _ _ Hsel) as Hl.
    pose proof (selects_in_bounds _ _ _ _ Hsel) as Hbound.
    split; [done|].
    destruct (ascendingFrom_length 0 (length arr) indices Hasc Hbound) as [?| ->];
      simpl in *; lia. }
  split; [|split; [done|]].
  - unfold subsequence_indices. by simp whileTrue.
  - intros Hlt.
    destruct (subsequence_indices strictEquals arr sub) as [indices|] eqn:Hrun;
      [|done].
    destruct (Hlen indices eq_refl). lia.
Qed.

End SubsequenceIndicesEdges.

(** ** Calls that can throw *)

Lemma bind_Return {A B} (a : A) (k : A -> outcome B) : (Return a ≫= k) = k a.
Proof. reflexivity. Qed.

Lemma forOf_cons {V A} (body : V -> A -> outcome V) v a l :
  forOf body v (a :: l) = body v a ≫= fun v' => forOf body v' l.
Proof. reflexivity. Qed.

(** ** [fibonacciOrder] *)

Module FibonacciOrderFacts.

Import FibonacciOrder FibonacciOrderTest.


Lemma foldl_add_sumZ l a : foldl Z.add a l = (a + sumZ l)%Z.
Proof.
  revert a. induction l as [|x l IH]; intros a; simpl; [lia|].
  rewrite IH. lia.
Qed.

Lemma sumZ_app l k : sumZ (l ++ k) = (sumZ l + sumZ k)%Z.
Proof. induction l as [|x l IH]; simpl; [done|]. rewrite IH. lia. Qed.

Lemma sumZ_pos l : Forall (fun x => 0 < x)%Z l -> l <> [] -> (0 < sumZ l)%Z.
Proof.
  induction 1 as [|x l Hx Hl IH]; [done|]. intros _. simpl.
  destruct l as [|y l]; simpl in *; [lia|].
  assert (0 < y + sumZ l)%Z by by apply IH. lia.
Qed.

Lemma filter_iff_in {A} (P Q : A -> Prop)
    `{!forall a, Decision (P a), !forall a, Decision (Q a)} (l : list A) :
  (forall a, a ∈ l -> P a <-> Q a) -> filter P l = filter Q l.
Proof.
  induction l as [|a l IH]; intros Hiff; [done|].
  rewrite !filter_cons, IH by (intros; apply Hiff; by right).
  apply decide_ext, Hiff. left.
Qed.

Lemma filter_at_most_one {A} (P : A -> Prop) `{!forall a, Decision (P a)} l :
  NoDup l -> (forall a b, a ∈ l -> b ∈ l -> P a -> P b -> a = b) ->
  length (filter P l) <= 1.
Proof.
  intros Hnd Huniq.
  destruct (filter P l) as [|a [|b k]] eqn:Hf; simpl; [lia..|].
  assert (NoDup (a :: b :: k)) as Hnd' by (rewrite <- Hf; by apply NoDup_filter).
  assert (a ∈ filter P l /\ b ∈ filter P l)
    as [[Pa Ha]%list_elem_of_filter [Pb Hb]%list_elem_of_filter].
  { rewrite Hf. split; [left|right; left]. }
  rewrite (Huniq a b) in Hnd' by done.
  apply NoDup_cons in Hnd' as [Hnot _]. exfalso. apply Hnot. left.
Qed.

(** The first element a filter keeps of a run of numbers is the least
    number of the run with the property. *)
Lemma filter_seq_head (P : nat -> Prop) `{!forall n, Decision (P n)} a m n0 rest :
  filter P (seq a m) = n0 :: rest ->
  P n0 /\ a <= n0 < a + m /\ forall k, a <= k < n0 -> ~ P k.
Proof.
  revert a. induction m as [|m IH]; intros a; simpl; [done|].
  rewrite filter_cons. destruct (decide (P a)) as [Ha|Ha].
  - intros [= <- _]. split; [done|]. split; [lia|]. intros; lia.
  - intros (? & ? & Hleast)%IH. split; [done|]. split; [lia|].
    intros k Hk. destruct (decide (k = a)) as [->|]; [done|].
    apply Hleast. lia.
Qed.

Section Slices.

Variable arr : list Z.

Local Abbreviation rangeSum := (FibonacciOrder.rangeSum arr).
Local Abbreviation sliceOf := (FibonacciOrder.sliceOf arr).
Local Abbreviation fits := (FibonacciOrder.fits arr).
Local Abbreviation candidates := (FibonacciOrder.candidates arr).

Lemma rangeSum_snoc lo i x :
  lo <= i -> arr !! i = Some x -> rangeSum lo (S i) = (rangeSum lo i + x)%Z.
Proof.
  intros Hlo Hx. unfold rangeSum.
  replace (S i - lo) with (S (i - lo)) by lia.
  rewrite (take_S_r _ _ x).
  - rewrite sumZ_app. simpl. lia.
  - rewrite lookup_drop. by replace (lo + (i - lo)) with i by lia.
Qed.

Lemma rangeSum_cons lo i x :
  lo < i -> arr !! lo = Some x -> rangeSum lo i = (x + rangeSum (S lo) i)%Z.
Proof.
  intros Hlo Hx. unfold rangeSum.
  rewrite (drop_S _ _ _ Hx). replace (i - lo) with (S (i - S lo)) by lia.
  done.
Qed.

Lemma rangeSum_nil i : rangeSum i i = 0%Z.
Proof. unfold rangeSum. by rewrite Nat.sub_diag. Qed.

Lemma moveRight_sliceOf i n x :
  n <= i -> arr !! i = Some x ->
  SumSlice.moveRight (sliceOf i n) = Return (sliceOf (S i) n).
Proof.
  intros Hn Hx. apply lookup_lt_Some in Hx as Hi.
  destruct (lookup_lt_is_Some_2 arr (i - n)) as [a Ha]; [lia|].
  unfold SumSlice.moveRight, sliceOf, SumSlice.operand. simpl.
  rewrite Ha, Hx. simpl.
  replace (i - n + 1) with (S i - n) by lia.
  replace (i + 1) with (S i) by lia. do 2 f_equal.
  destruct (decide (n = 0)) as [->|Hn0].
  - rewrite Nat.sub_0_r in *. rewrite !rangeSum_nil.
    assert (a = x) by congruence. lia.
  - replace (S i - n) with (S (i - n)) by lia.
    rewrite (rangeSum_snoc _ i x), (rangeSum_cons (i - n) i a);
      [lia|lia|done|lia|done].
Qed.

Lemma expandRight_sliceOf i x :
  arr !! i = Some x ->
  SumSlice.expandRight (sliceOf i i) = Return (sliceOf (S i) (S i)).
Proof.
  intros Hx. unfold SumSlice.expandRight, sliceOf, SumSlice.operand. simpl.
  rewrite Hx. simpl. rewrite !Nat.sub_diag.
  replace (i + 1) with (S i) by lia. do 2 f_equal.
  by rewrite (rangeSum_snoc _ i x); [|lia|].
Qed.

Lemma mapM_moveRight i x l :
  Forall (fun n => n <= i) l -> arr !! i = Some x ->
  mapM SumSlice.moveRight (sliceOf i <$> l) = Return (sliceOf (S i) <$> l).
Proof.
  intros Hl Hx. induction Hl as [|n l Hn _ IH]; [done|].
  rewrite !fmap_cons. simpl. rewrite (moveRight_sliceOf i n x), IH; done.
Qed.

Lemma fits_S i n x :
  n <= i -> arr !! i = Some x ->
  fits (S i) n <-> fits i n /\ rangeSum (i - n) i = x.
Proof.
  intros Hn Hx. unfold fits.
  replace (S i - n) with (S (i - n)) by lia.
  rewrite seq_S, Forall_app, Forall_singleton.
  replace (n + (i - n)) with i by lia. rewrite Hx.
  split; intros [? ?]; split; congruence.
Qed.

Lemma fits_diag i : fits i i.
Proof. unfold fits. rewrite Nat.sub_diag. constructor. Qed.

Lemma candidates_S i x :
  arr !! i = Some x ->
  candidates (S i)
  = filter (fun n => rangeSum (i - n) i = x) (candidates i) ++ [S i].
Proof.
  intros Hx. unfold candidates.
  rewrite (seq_S (S i)), filter_app, Nat.add_0_l.
  rewrite (filter_cons_True _ (S i)) by apply fits_diag.
  rewrite filter_nil. f_equal.
  rewrite list_filter_filter. apply filter_iff_in.
  intros n Hn%elem_of_seq.
  rewrite (fits_S i n x); [tauto|lia|done].
Qed.

Lemma candidates_bound i : Forall (fun n => n <= i) (candidates i).
Proof.
  apply Forall_forall. intros n [_ Hn%elem_of_seq]%list_elem_of_filter. lia.
Qed.

Lemma candidates_NoDup i : NoDup (candidates i).
Proof. apply NoDup_filter, NoDup_seq. Qed.

Hypothesis positive : Forall (fun x => 0 < x)%Z arr.

Lemma rangeSum_split lo mid i :
  lo <= mid -> mid <= i -> i <= length arr ->
  rangeSum lo i = (rangeSum lo mid + rangeSum mid i)%Z.
Proof.
  intros Hlo Hmid. induction Hmid as [|i Hmid IH]; intros Hi.
  - rewrite rangeSum_nil. lia.
  - destruct (lookup_lt_is_Some_2 arr i) as [x Hx]; [lia|].
    rewrite !(rangeSum_snoc _ i x), IH by (done || lia). lia.
Qed.

Lemma rangeSum_lt lo lo' i :
  lo < lo' -> lo' <= i -> i <= length arr ->
  (rangeSum lo' i < rangeSum lo i)%Z.
Proof.
  intros Hlo Hlo' Hi. rewrite (rangeSum_split lo lo' i) by lia.
  assert (0 < rangeSum lo lo')%Z; [|lia].
  apply sumZ_pos.
  - by apply Forall_take, Forall_drop.
  - intros Hnil%(f_equal length). rewrite length_take, length_drop in Hnil.
    simpl in Hnil. lia.
Qed.

Lemma survivors_length i x :
  i <= length arr ->
  length (filter (fun n => rangeSum (i - n) i = x) (candidates i)) <= 1.
Proof.
  intros Hi. apply filter_at_most_one; [apply candidates_NoDup|].
  intros a b Ha Hb Pa Pb.
  pose proof (candidates_bound i) as Hbound. rewrite Forall_forall in Hbound.
  apply Hbound in Ha, Hb.
  destruct (Nat.lt_trichotomy a b) as [Hlt|[->|Hlt]]; [|done|].
  - pose proof (rangeSum_lt (i - b) (i - a) i). lia.
  - pose proof (rangeSum_lt (i - a) (i - b) i). lia.
Qed.

Lemma candidates_length i : i <= length arr -> length (candidates i) <= 2.
Proof.
  destruct i as [|i]; intros Hi.
  - pose proof (length_filter (fits 0) (seq 0 1)) as Hle.
    unfold candidates. rewrite length_seq in Hle. lia.
  - destruct (lookup_lt_is_Some_2 arr i) as [x Hx]; [lia|].
    rewrite (candidates_S i x Hx), length_app. simpl.
    pose proof (survivors_length i x). lia.
Qed.

Lemma body_sliceOf i x :
  arr !! i = Some x ->
  body (sliceOf i <$> candidates i, sliceOf i i) x
  = Return (sliceOf (S i) <$> candidates (S i), sliceOf (S i) (S i)).
Proof.
  intros Hx. apply lookup_lt_Some in Hx as Hi. unfold body.
  rewrite length_fmap, bool_decide_eq_true_2 by (apply candidates_length; lia).
  simpl.
  assert (filter (fun slice => SumSlice.sum slice = x) (sliceOf i <$> candidates i)
          = sliceOf i <$> filter (fun n => rangeSum (i - n) i = x) (candidates i))
    as ->.
  { induction (candidates i) as [|n l IH]; [done|].
    rewrite fmap_cons. rewrite !filter_cons. simpl.
    destruct (decide (rangeSum (i - n) i = x)); by rewrite ?fmap_cons, IH. }
  rewrite (mapM_moveRight i x); [| |done].
  2:{ apply Forall_forall. intros n [_ Hn]%list_elem_of_filter.
      revert n Hn. apply Forall_forall, candidates_bound. }
  simpl. rewrite (expandRight_sliceOf i x Hx). simpl.
  by rewrite (candidates_S i x Hx), fmap_app.
Qed.

Lemma forOf_sliceOf i :
  i <= length arr ->
  forOf body (sliceOf i <$> candidates i, sliceOf i i) (drop i arr)
  = Return (sliceOf (length arr) <$> candidates (length arr),
            sliceOf (length arr) (length arr)).
Proof.
  intros Hi. remember (length arr - i) as k eqn:Hk.
  revert i Hi Hk. induction k as [|k IH]; intros i Hi Hk.
  - assert (i = length arr) as -> by lia. by rewrite drop_all.
  - destruct (lookup_lt_is_Some_2 arr i) as [x Hx]; [lia|].
    rewrite (drop_S _ _ _ Hx), forOf_cons, (body_sliceOf i x Hx), bind_Return.
    apply IH; lia.
Qed.

End Slices.

(** *** The oracle of the tests *)

Lemma slice_in_range {A} (l : list A) (lo hi : nat) :
  lo <= hi -> hi <= length l ->
  slice l (Z.of_nat lo) (Z.of_nat hi) = take (hi - lo) (drop lo l).
Proof.
  intros Hlo Hhi. unfold slice.
  rewrite !(proj2 (Z.ltb_ge _ _)) by lia.
  rewrite !Z.min_l by lia. f_equal; [lia|f_equal; lia].
Qed.

Lemma sumOfPreviousNElements_in_range arr k n :
  n <= k -> k <= length arr ->
  sumOfPreviousNElements arr (Z.of_nat k) (Z.of_nat n)
  = Return (rangeSum arr (k - n) k).
Proof.
  intros Hn Hk. unfold sumOfPreviousNElements.
  replace (Z.of_nat k - Z.of_nat n)%Z with (Z.of_nat (k - n)) by lia.
  rewrite slice_in_range by lia.
  rewrite bool_decide_eq_true_2.
  - unfold assert. rewrite bind_Return, foldl_add_sumZ. unfold rangeSum.
    f_equal; lia.
  - rewrite length_take, length_drop. lia.
Qed.

Lemma every_fits arr n i :
  i <= length arr ->
  exists b,
    every (fun x k =>
             if bool_decide (k < n) then Return true
             else
               s ← sumOfPreviousNElements arr (Z.of_nat k) (Z.of_nat n);
               Return (bool_decide (s = x)))
      i (drop i arr) = Return b /\
    (b = true <->
     forall k, i <= k -> n <= k -> k < length arr ->
               arr !! k = Some (rangeSum arr (k - n) k)).
Proof.
  intros Hi. remember (length arr - i) as m eqn:Hm.
  revert i Hi Hm. induction m as [|m IH]; intros i Hi Hm.
  - exists true. rewrite drop_ge by lia. split; [done|].
    split; [|done]. intros _ k ? ? ?. lia.
  - destruct (lookup_lt_is_Some_2 arr i) as [x Hx]; [lia|].
    rewrite (drop_S _ _ _ Hx).
    destruct (IH (S i)) as (b & Hb & Hiff); [lia..|].
    cbn [every]. case_bool_decide as Hin.
    + rewrite bind_Return. exists b. split; [done|].
      rewrite Hiff. split; intros Hall k ? ? ?; apply Hall; lia.
    + rewrite sumOfPreviousNElements_in_range by lia.
      rewrite !bind_Return. case_bool_decide as Heq.
      * exists b. split; [done|]. rewrite Hiff.
        split; intros Hall k ? ? ?; [|apply Hall; lia].
        destruct (decide (k = i)) as [->|]; [congruence|]. apply Hall; lia.
      * exists false. split; [done|]. split; [done|]. intros Hall.
        specialize (Hall i). rewrite Hx in Hall. exfalso. apply Heq.
        assert (Some x = Some (rangeSum arr (i - n) i)) by (apply Hall; lia).
        congruence.
Qed.

Lemma isNBonacciLikeList_fits arr n :
  isNBonacciLikeList arr n
  = Return (bool_decide (fits arr (length arr) n)).
Proof.
  destruct (every_fits arr n 0) as (b & Hb & Hiff); [lia|].
  rewrite drop_0 in Hb. unfold isNBonacciLikeList. rewrite Hb. f_equal.
  assert (fits arr (length arr) n <->
          forall k, 0 <= k -> n <= k -> k < length arr ->
                    arr !! k = Some (rangeSum arr (k - n) k)) as Hfits.
  { unfold fits. rewrite Forall_forall. split.
    - intros Hall k _ ? ?. apply Hall, elem_of_seq. lia.
    - intros Hall k Hk%elem_of_seq. apply Hall; lia. }
  rewrite <- Hfits in Hiff. destruct b.
  - symmetry. apply bool_decide_eq_true_2. by apply Hiff.
  - symmetry. apply bool_decide_eq_false_2. intros Hf. by apply Hiff in Hf.
Qed.

Lemma every_positive arr :
  forallb (fun x => 0 <? x)%Z arr = true <-> Forall (fun x => 0 < x)%Z arr.
Proof.
  induction arr as [|x arr IH]; simpl; [by split|].
  rewrite andb_true_iff, Z.ltb_lt, IH, Forall_cons. done.
Qed.

(** On positive integers the call returns the first of the candidates for
    the whole array. *)
Lemma fibonacciOrder_positive (arr : list Z) :
  Forall (fun x => 0 < x)%Z arr ->
  exists n : nat,
    fibonacciOrder arr = Return (Z.of_nat n) /\
    n <= length arr /\
    fits arr (length arr) n /\
    forall m, m < n -> ~ fits arr (length arr) m.
Proof.
  intros Hpos. unfold fibonacciOrder.
  rewrite (proj2 (every_positive arr) Hpos).
  cbn [negb].
  pose proof (forOf_sliceOf arr Hpos 0) as Hloop.
  rewrite drop_0 in Hloop.
  assert (candidates arr 0 = [0]) as Hc0.
  { unfold candidates. cbn [seq]. rewrite filter_cons_True by apply fits_diag.
    done. }
  rewrite Hc0 in Hloop.
  change (sliceOf arr 0 <$> [0]) with [SumSlice.empty arr] in Hloop.
  change (sliceOf arr 0 0) with (SumSlice.empty arr) in Hloop.
  rewrite Hloop by lia. rewrite bind_Return.
  destruct (candidates arr (length arr)) as [|n rest] eqn:Hcands.
  { pose proof (f_equal length Hcands) as Hlen. revert Hlen.
    destruct (length arr) as [|len] eqn:Hl.
    - rewrite Hc0. done.
    - destruct (lookup_lt_is_Some_2 arr len) as [x Hx]; [lia|].
      rewrite (candidates_S arr len x Hx), length_app. simpl. lia. }
  apply filter_seq_head in Hcands as (Hfits & Hn & Hleast).
  exists n. rewrite fmap_cons. cbn [lookup list_lookup].
  split; [|split; [lia|split; [done|]]].
  - unfold SumSlice.length, sliceOf. simpl. f_equal. lia.
  - intros m Hm. apply Hleast. lia.
Qed.

(** X1. On a list of positive integers [fibonacciOrder] returns the least [n]
    for which the oracle of the tests, [isNBonacciLikeList], says the list
    is [n]-bonacci-like; that [n] is at most the length of the list. *)
Theorem fibonacciOrder_least (arr : list Z) :
  Forall (fun x => 0 < x)%Z arr ->
  exists n : nat,
    fibonacciOrder arr = Return (Z.of_nat n) /\
    n <= length arr /\
    isNBonacciLikeList arr n = Return true /\
    forall m, m < n -> isNBonacciLikeList arr m = Return false.
Proof.
  intros (n & Hn & Hlen & Hfits & Hleast)%fibonacciOrder_positive.
  exists n. split; [done|]. split; [done|]. split.
  - rewrite isNBonacciLikeList_fits. by rewrite bool_decide_eq_true_2.
  - intros m Hm. rewrite isNBonacciLikeList_fits.
    rewrite bool_decide_eq_false_2; [done|]. by apply Hleast.
Qed.

Lemma fibonacciOrder_least_witness :
  exists n : nat,
    fibonacciOrder [1; 1; 2; 3; 6; 13; 25; 49]%Z = Return (Z.of_nat n) /\
    n <= length [1; 1; 2; 3; 6; 13; 25; 49]%Z /\
    isNBonacciLikeList [1; 1; 2; 3; 6; 13; 25; 49]%Z n = Return true /\
    forall m,
      m < n -> isNBonacciLikeList [1; 1; 2; 3; 6; 13; 25; 49]%Z m = Return false.
Proof.
  apply (fibonacciOrder_least [1; 1; 2; 3; 6; 13; 25; 49]%Z).
  repeat constructor.
Defined.

(** X2. [fibonacciOrder] throws exactly when some element is not positive, and
    then it is the error of the input check: the assertion in the loop
    never fails and no slice reads outside the array. *)
Theorem fibonacciOrder_throws (arr : list Z) :
  (fibonacciOrder arr
   = Throw (Error "`fibonacciOrder` only accepts lists of positive integers")
   <-> Exists (fun x => x <= 0)%Z arr) /\
  (forall e,
     fibonacciOrder arr = Throw e ->
     e = Error "`fibonacciOrder` only accepts lists of positive integers").
Proof.
  destruct (decide (Forall (fun x => 0 < x)%Z arr)) as [Hpos|Hneg].
  - destruct (fibonacciOrder_positive arr Hpos) as (n & -> & _).
    split; [split; [done|]|done].
    intros Hex. apply Exists_exists in Hex as (x & Hin & Hx).
    rewrite Forall_forall in Hpos. apply Hpos in Hin. lia.
  - unfold fibonacciOrder.
    destruct (forallb _ arr) eqn:Hall; [by apply every_positive in Hall|].
    cbn [negb]. split; [split; [intros _|done]|congruence].
    apply not_Forall_Exists in Hneg; [|apply _].
    eapply Exists_impl; [done|]. simpl. lia.
Qed.

End FibonacciOrderFacts.

(** ** [SumSlice] *)

Module SumSliceFacts.

Import FibonacciOrder FibonacciOrderFacts.

Lemma expandRight_sliceOf_any arr i n x :
  n <= i -> arr !! i = Some x ->
  SumSlice.expandRight (sliceOf arr i n) = Return (sliceOf arr (S i) (S n)).
Proof.
  intros Hn Hx. unfold SumSlice.expandRight, sliceOf, SumSlice.operand. simpl.
  rewrite Hx. simpl. replace (i + 1) with (S i) by lia.
  by rewrite (rangeSum_snoc arr _ i x); [|lia|].
Qed.

(** X4. A slice with an accurate sum that ends before index [i]: while [i] is
    in bounds, [moveRight] and [expandRight] return the slice moved or
    grown by one, again with an accurate sum, and [length] is the number
    of elements; at the right edge both throw a [TypeError]. *)
Theorem SumSlice_steps (arr : list Z) (i n : nat) :
  n <= i ->
  SumSlice.length (sliceOf arr i n) = Z.of_nat n /\
  (i < length arr ->
   SumSlice.moveRight (sliceOf arr i n) = Return (sliceOf arr (S i) n) /\
   SumSlice.expandRight (sliceOf arr i n) = Return (sliceOf arr (S i) (S n))) /\
  (length arr <= i ->
   SumSlice.moveRight (sliceOf arr i n) = Throw TypeError /\
   SumSlice.expandRight (sliceOf arr i n) = Throw TypeError).
Proof.
  intros Hn. split; [|split].
  - unfold SumSlice.length, sliceOf. simpl. lia.
  - intros Hi. destruct (lookup_lt_is_Some_2 arr i Hi) as [x Hx]. split.
    + by apply (moveRight_sliceOf arr i n x).
    + by apply (expandRight_sliceOf_any arr i n x).
  - intros Hi. apply lookup_ge_None_2 in Hi.
    unfold SumSlice.moveRight, SumSlice.expandRight, sliceOf, SumSlice.operand.
    simpl. rewrite Hi. split; [|done]. by destruct (arr !! (i - n)).
Qed.

Lemma SumSlice_steps_witness :
  SumSlice.length (sliceOf [1; 1; 2; 3]%Z 2 2) = Z.of_nat 2 /\
  (2 < length [1; 1; 2; 3]%Z ->
   SumSlice.moveRight (sliceOf [1; 1; 2; 3]%Z 2 2)
   = Return (sliceOf [1; 1; 2; 3]%Z 3 2) /\
   SumSlice.expandRight (sliceOf [1; 1; 2; 3]%Z 2 2)
   = Return (sliceOf [1; 1; 2; 3]%Z 3 3)) /\
  (length [1; 1; 2; 3]%Z <= 2 ->
   SumSlice.moveRight (sliceOf [1; 1; 2; 3]%Z 2 2) = Throw TypeError /\
   SumSlice.expandRight (sliceOf [1; 1; 2; 3]%Z 2 2) = Throw TypeError).
Proof. apply (SumSlice_steps [1; 1; 2; 3]%Z 2 2). lia. Defined.

End SumSliceFacts.

(** ** The generator of the property test of [fibonacciOrder] *)

Module FibonacciOrderGeneratorFacts.

Import FibonacciOrder FibonacciOrderTest FibonacciOrderFacts FibonacciOrderGenerator.

Lemma rangeSum_app_l arr tail lo hi :
  hi <= length arr -> rangeSum (arr ++ tail) lo hi = rangeSum arr lo hi.
Proof.
  intros Hhi. unfold rangeSum. f_equal.
  destruct (decide (lo <= length arr)) as [Hlo|Hlo].
  - rewrite drop_app_le by done. rewrite take_app_le; [done|].
    rewrite length_drop. lia.
  - by replace (hi - lo) with 0 by lia.
Qed.

Lemma fits_snoc arr n :
  n <= length arr -> fits arr (length arr) n ->
  fits (arr ++ [rangeSum arr (length arr - n) (length arr)]) (S (length arr)) n.
Proof.
  intros Hn Hfits. unfold fits in *.
  replace (S (length arr) - n) with (S (length arr - n)) by lia.
  rewrite seq_S, Forall_app, Forall_singleton.
  replace (n + (length arr - n)) with (length arr) by lia. split.
  - rewrite Forall_forall in Hfits. apply Forall_forall.
    intros k Hk. pose proof Hk as Hk'%elem_of_seq.
    rewrite lookup_app_l by lia. rewrite rangeSum_app_l by lia.
    by apply Hfits.
  - rewrite list_lookup_middle by done. by rewrite rangeSum_app_l.
Qed.

Lemma extend_fits k n arr :
  0 < n -> n <= length arr ->
  Forall (fun x => 0 < x)%Z arr -> fits arr (length arr) n ->
  exists list,
    extend k n arr = Return list /\
    length list = length arr + k /\
    Forall (fun x => 0 < x)%Z list /\
    fits list (length list) n.
Proof.
  revert arr. induction k as [|k IH]; intros arr Hn Hlen Hpos Hfits.
  - exists arr. by rewrite Nat.add_0_r.
  - cbn [extend]. rewrite sumOfPreviousNElements_in_range by lia.
    rewrite bind_Return.
    destruct (IH (arr ++ [rangeSum arr (length arr - n) (length arr)]))
      as (list & Hrun & Hlength & Hpos' & Hfits'); [done|..].
    + rewrite length_app. simpl. lia.
    + apply Forall_app. split; [done|]. constructor; [|done].
      apply sumZ_pos; [by apply Forall_take, Forall_drop|].
      intros Hnil%(f_equal length).
      rewrite length_take, length_drop in Hnil. simpl in Hnil. lia.
    + rewrite length_app. simpl. rewrite Nat.add_1_r. by apply fits_snoc.
    + exists list. rewrite length_app in Hlength. simpl in Hlength.
      split; [done|]. split; [lia|done].
Qed.

(** X7. What the generator of the property test builds from a non-empty list
    of positive integers: a list of positive integers, longer by the
    number of added elements, that the oracle takes for [n]-bonacci-like
    with [n] the length of the list it started from; so [fibonacciOrder]
    returns at most that [n] for it. *)
Theorem nBonacciLikeList_is_like (arr : list Z) (numAdditionalElements : nat) :
  arr <> [] -> Forall (fun x => 0 < x)%Z arr ->
  exists list m,
    nBonacciLikeList arr numAdditionalElements = Return list /\
    length list = length arr + numAdditionalElements /\
    Forall (fun x => 0 < x)%Z list /\
    isNBonacciLikeList list (length arr) = Return true /\
    fibonacciOrder list = Return (Z.of_nat m) /\
    m <= length arr.
Proof.
  intros Hne Hpos. unfold nBonacciLikeList.
  destruct (extend_fits numAdditionalElements (length arr) arr)
    as (list & Hrun & Hlength & Hpos' & Hfits); [|done|done|..].
  - destruct arr; [done|simpl; lia].
  - unfold fits. rewrite Nat.sub_diag. constructor.
  - destruct (fibonacciOrder_positive list Hpos') as (m & Hm & _ & _ & Hleast).
    exists list, m. split; [done|]. split; [done|]. split; [done|].
    split; [|split; [done|]].
    + rewrite isNBonacciLikeList_fits. by rewrite bool_decide_eq_true_2.
    + destruct (decide (m <= length arr)); [done|].
      exfalso. apply (Hleast (length arr)); [lia|done].
Qed.

Lemma nBonacciLikeList_is_like_witness :
  exists list m,
    nBonacciLikeList [1; 1; 2]%Z 4 = Return list /\
    length list = length [1; 1; 2]%Z + 4 /\
    Forall (fun x => 0 < x)%Z list /\
    isNBonacciLikeList list (length [1; 1; 2]%Z) = Return true /\
    fibonacciOrder list = Return (Z.of_nat m) /\
    m <= length [1; 1; 2]%Z.
Proof.
  apply (nBonacciLikeList_is_like [1; 1; 2]%Z 4); [done|].
  repeat constructor.
Defined.

End FibonacciOrderGeneratorFacts.

(** ** Bounds and the oracle's helpers *)

Module FibonacciOrderEdges.

Import FibonacciOrder FibonacciOrderTest FibonacciOrderFacts.

(** X5. [sumOfPreviousNElements] for an index of the array, or the index after
    its last one: with [n] elements before the index it returns their sum,
    with fewer its assertion fails. *)
Theorem sumOfPreviousNElements_cases (arr : list Z) (index n : nat) :
  index <= length arr ->
  sumOfPreviousNElements arr (Z.of_nat index) (Z.of_nat n)
  = if decide (n <= index)
    then Return (rangeSum arr (index - n) index)
    else Throw AssertionError.
Proof.
  intros Hindex. destruct (decide (n <= index)) as [Hn|Hn].
  - by apply sumOfPreviousNElements_in_range.
  - unfold sumOfPreviousNElements, slice.
    rewrite bool_decide_eq_false_2; [done|].
    rewrite length_take, length_drop.
    destruct (Z.of_nat index - Z.of_nat n <? 0)%Z eqn:E1;
      [|apply Z.ltb_ge in E1; lia].
    destruct (Z.of_nat index <? 0)%Z eqn:E2; [apply Z.ltb_lt in E2; lia|].
    lia.
Qed.

Lemma sumOfPreviousNElements_cases_witness :
  sumOfPreviousNElements [1; 1; 2]%Z (Z.of_nat 1) (Z.of_nat 2)
  = if decide (2 <= 1)
    then Return (rangeSum [1; 1; 2]%Z (1 - 2) 1)
    else Throw AssertionError.
Proof. apply (sumOfPreviousNElements_cases [1; 1; 2]%Z 1 2). simpl. lia. Defined.

(** X6. The oracle never fails its assertion, and every list is, vacuously,
    [n]-bonacci-like for each [n] from its length on. *)
Theorem isNBonacciLikeList_total (arr : list Z) (n : nat) :
  (exists b, isNBonacciLikeList arr n = Return b) /\
  (length arr <= n -> isNBonacciLikeList arr n = Return true).
Proof.
  rewrite isNBonacciLikeList_fits. split; [by eexists|].
  intros Hn. rewrite bool_decide_eq_true_2; [done|].
  unfold fits. replace (length arr - n) with 0 by lia. constructor.
Qed.

(** X3. For a non-empty list of positive integers the result is at least [1]
    and at most the length of the list. *)
Theorem fibonacciOrder_bounds (arr : list Z) :
  arr <> [] -> Forall (fun x => 0 < x)%Z arr ->
  exists n : nat,
    fibonacciOrder arr = Return (Z.of_nat n) /\ 1 <= n <= length arr.
Proof.
  intros Hne Hpos.
  destruct (fibonacciOrder_positive arr Hpos) as (n & Hrun & Hlen & Hfits & _).
  exists n. split; [done|]. split; [|done].
  destruct n as [|n]; [|lia]. exfalso.
  destruct arr as [|x arr]; [done|].
  unfold fits in Hfits. simpl in Hfits.
  apply Forall_cons in Hfits as [Hx _]. simpl in Hx.
  rewrite rangeSum_nil in Hx. apply Forall_cons in Hpos as [Hx' _].
  injection Hx as ->. lia.
Qed.

Lemma fibonacciOrder_bounds_witness :
  exists n : nat,
    fibonacciOrder [1; 1; 2]%Z = Return (Z.of_nat n) /\
    1 <= n <= length [1; 1; 2]%Z.
Proof.
  apply (fibonacciOrder_bounds [1; 1; 2]%Z); [done|]. repeat constructor.
Defined.

End FibonacciOrderEdges.

(** ** [splitOnNewChars] *)

Module SplitOnNewCharsFacts.

Import SplitOnNewChars.

Lemma appendToLast_snoc l s char :
  appendToLast (l ++ [s]) char = l ++ [concatStrings s char].
Proof.
  unfold appendToLast. rewrite length_app, Nat.add_1_r.
  cbv iota beta. rewrite alter_app_r_alt by lia. by rewrite Nat.sub_diag.
Qed.

Lemma join_snoc parts char : join (parts ++ [char]) = join parts ++ char.
Proof. unfold join. rewrite concat_app. simpl. by rewrite (right_id [] (++)). Qed.

Lemma body_splitInvariant seen v char :
  splitInvariant seen v -> splitInvariant (seen ++ [char]) (body v char).
Proof.
  destruct v as [a enc]. intros (groups & Harr & Hseen & Hseg & Henc & Hsize).
  simpl in *. unfold body. simpl. case_bool_decide as Hin; simpl.
  - (* the character was met before: it goes to the end of the last group *)
    rewrite Henc, elem_of_list_to_set in Hin. pose proof Hin as Hmem.
    destruct Hseg as [|groups c rest Hseg Hc Hrest].
    { rewrite <- Hseen in Hin. by apply elem_of_nil in Hin. }
    exists (groups ++ [c :: rest ++ [char]]).
    rewrite fmap_app in Harr. rewrite Harr.
    change (join <$> [c :: rest]) with [join (c :: rest)].
    rewrite appendToLast_snoc. split; [|split; [|split; [|split]]].
    + rewrite fmap_app.
      change (join <$> [c :: rest ++ [char]]) with [join ((c :: rest) ++ [char])].
      by rewrite join_snoc.
    + rewrite <- Hseen, !concat_app. simpl.
      by rewrite !(right_id [] (++)), <- !app_assoc.
    + constructor; [done|done|]. apply Forall_app. split; [done|].
      constructor; [|done].
      rewrite <- Hseen, concat_app, elem_of_app in Hin. simpl in Hin.
      rewrite (right_id [] (++)) in Hin.
      destruct Hin as [Hin|Hin]; [by right|].
      apply elem_of_cons in Hin as [->|Hin]; [left|].
      rewrite Forall_forall in Hrest. by apply Hrest.
    + cbn [encounteredChars]. rewrite list_to_set_snoc_L.
      rewrite Henc. apply set_eq. intros x.
      rewrite elem_of_union, elem_of_singleton, !elem_of_list_to_set.
      split; [intros ?; by left|]. by intros [?| ->].
    + cbn [encounteredChars arr]. rewrite <- Hsize, Harr, !length_app.
      done.
  - (* a new character: it starts a group of its own *)
    rewrite Henc, elem_of_list_to_set in Hin.
    exists (groups ++ [[char]]). rewrite appendToLast_snoc.
    split; [|split; [|split; [|split]]].
    + rewrite Harr, fmap_app.
      change (join <$> [[char]]) with [join ([] ++ [char])].
      by rewrite join_snoc.
    + rewrite concat_app, Hseen. simpl. done.
    + constructor; [done| by rewrite Hseen |constructor].
    + cbn [encounteredChars]. rewrite list_to_set_snoc_L, Henc.
      apply (comm_L _).
    + cbn [encounteredChars arr]. rewrite !length_app, Hsize. simpl.
      rewrite size_union, size_singleton; [lia|].
      apply disjoint_singleton_l. by rewrite Henc, elem_of_list_to_set.
Qed.

Lemma fold_splitInvariant chars seen v :
  splitInvariant seen v ->
  splitInvariant (seen ++ chars) (fold_left body chars v).
Proof.
  revert seen v. induction chars as [|char chars IH]; intros seen v Hv; simpl.
  - by rewrite (right_id [] (++)).
  - rewrite cons_middle, app_assoc. by apply IH, body_splitInvariant.
Qed.

Lemma splitInvariant_final str :
  splitInvariant (codePoints str) (fold_left body (codePoints str) (mkVars [] ∅)).
Proof.
  apply (fold_splitInvariant _ []). exists []. by repeat split; try constructor.
Qed.

Lemma join_join (groups : list (list jsstring)) :
  join (join <$> groups) = join (concat groups).
Proof.
  unfold join. induction groups as [|g groups IH]; [done|].
  rewrite fmap_cons. simpl. by rewrite concat_app, IH.
Qed.

Lemma codePoints_nonempty str char : char ∈ codePoints str -> char <> [].
Proof.
  induction str as [|u|u v s IH1 IH2] using codePoints_two_step.
  - by intros ?%elem_of_nil.
  - by intros ->%list_elem_of_singleton.
  - change (codePoints (u :: v :: s)) with
      (if isLeadingSurrogate u && isTrailingSurrogate v
       then [u; v] :: codePoints s else [u] :: codePoints (v :: s)).
    destruct (_ && _); intros [->|Hin]%elem_of_cons; auto.
Qed.

Lemma Segmented_heads groups :
  Segmented groups -> Forall (fun g => exists char rest, g = char :: rest) groups.
Proof.
  induction 1 as [|groups char rest _ IH _ _]; [constructor|].
  apply Forall_app. split; [done|]. constructor; [|done]. by exists char, rest.
Qed.

(** X8. The pieces put together give the string back, and no piece is empty. *)
Theorem splitOnNewChars_join (str : jsstring) :
  join (splitOnNewChars str) = str /\
  Forall (fun s => s <> []) (splitOnNewChars str).
Proof.
  destruct (splitInvariant_final str) as (groups & Harr & Hseen & Hseg & _).
  unfold splitOnNewChars. rewrite Harr. split.
  - by rewrite join_join, Hseen, join_codePoints.
  - apply Forall_fmap, Forall_forall. intros g Hg.
    pose proof (Segmented_heads _ Hseg) as Hheads.
    rewrite Forall_forall in Hheads.
    destruct (Hheads g Hg) as (char & rest & ->).
    assert (char ∈ codePoints str) as Hchar.
    { rewrite <- Hseen. apply list_elem_of_In, in_concat.
      exists (char :: rest). split; apply list_elem_of_In; [done|left]. }
    apply codePoints_nonempty in Hchar. simpl. unfold join. simpl.
    by destruct char.
Qed.

(** X9. A new piece begins exactly at the characters that did not occur before:
    the pieces are the groups of a split of the characters of the string in
    which each group starts with a character no earlier group holds and
    holds, after it, only characters met before. *)
Theorem splitOnNewChars_segmented (str : jsstring) :
  exists groups,
    splitOnNewChars str = join <$> groups /\
    concat groups = codePoints str /\
    Segmented groups.
Proof.
  destruct (splitInvariant_final str) as (groups & Harr & Hseen & Hseg & _).
  by exists groups.
Qed.

(** X10. There are as many pieces as the string has distinct characters. *)
Theorem splitOnNewChars_length (str : jsstring) :
  length (splitOnNewChars str)
  = size (list_to_set (codePoints str) : gset jsstring).
Proof.
  destruct (splitInvariant_final str) as (groups & _ & _ & _ & Henc & Hsize).
  unfold splitOnNewChars. by rewrite Hsize, Henc.
Qed.

End SplitOnNewCharsFacts.

(** ** The property test of [splitOnNewChars] *)

Module SplitOnNewCharsTestFacts.

Import SplitOnNewChars SplitOnNewCharsTest SplitOnNewCharsFacts.











End SplitOnNewCharsTestFacts.

(** ** [squareDifferenceFree] *)

Module SquareDifferenceFreeFacts.

Import SquareDifferenceFree.

Local Open Scope Z_scope.

Lemma next_dest (x : SquareDistance.t) :
  SquareDistance.dest (SquareDistance.next x)
  = SquareDistance.dest x + 2 * SquareDistance.sqrtDist x + 1.
Proof. unfold SquareDistance.dest. simpl. rewrite !Z.pow_2_r. lia. Qed.

(** One run of the inner loop body stores the next distance under its
    destination and leaves the other entries alone. *)
Lemma inner_entries d M x :
  SquareDistance.dest x = d ->
  exists M',
    inner d M x = Return M' /\
    (forall k,
       entries M' k
       = if decide (k = SquareDistance.dest (SquareDistance.next x))
         then entries M k ++ [SquareDistance.next x]
         else entries M k) /\
    (forall k,
       is_Some (M' !! k) <->
       is_Some (M !! k) \/ k = SquareDistance.dest (SquareDistance.next x)) /\
    ((forall k l, M !! k = Some l -> l <> []) ->
     forall k l, M' !! k = Some l -> l <> []).
Proof.
  intros <-. unfold inner.
  rewrite (bool_decide_eq_true_2 (SquareDistance.dest x = SquareDistance.dest x))
    by done.
  unfold assert. rewrite bind_Return.
  set (nx := SquareDistance.next x). set (nk := SquareDistance.dest nx).
  eexists. split; [reflexivity|]. fold nx nk.
  case_bool_decide as Hhas; cbn [negb].
  - destruct Hhas as [l Hl]. split; [|split].
    + intros k. unfold entries. destruct (decide (k = nk)) as [->|Hk].
      * by rewrite lookup_alter_eq, Hl.
      * by rewrite lookup_alter_ne.
    + intros k. destruct (decide (k = nk)) as [->|Hk].
      * rewrite lookup_alter_eq, Hl. split; [by right|by eexists].
      * rewrite lookup_alter_ne by done. split; [by left|]. by intros [?|?].
    + intros Hne k l'. destruct (decide (k = nk)) as [->|Hk].
      * rewrite lookup_alter_eq, Hl. simpl. intros [= <-]. by destruct l.
      * rewrite lookup_alter_ne by done. apply Hne.
  - assert (M !! nk = None) as Hnone.
    { destruct (M !! nk) eqn:E; [|done]. exfalso. apply Hhas. by eexists. }
    split; [|split].
    + intros k. unfold entries. destruct (decide (k = nk)) as [->|Hk].
      * by rewrite lookup_alter_eq, lookup_insert_eq, Hnone.
      * by rewrite lookup_alter_ne, lookup_insert_ne.
    + intros k. destruct (decide (k = nk)) as [->|Hk].
      * rewrite lookup_alter_eq, lookup_insert_eq. split; [by right|by eexists].
      * rewrite lookup_alter_ne, lookup_insert_ne by done.
        split; [by left|]. by intros [?|?].
    + intros Hne k l'. destruct (decide (k = nk)) as [->|Hk].
      * rewrite lookup_alter_eq, lookup_insert_eq. simpl. by intros [= <-].
      * rewrite lookup_alter_ne, lookup_insert_ne by done. apply Hne.
Qed.

(** The inner loop over distances that all end at [d]. *)
Lemma forOf_inner d L M :
  Forall (fun x => SquareDistance.dest x = d) L ->
  exists M',
    forOf (inner d) M L = Return M' /\
    (forall k x,
       x ∈ entries M' k <->
       x ∈ entries M k \/
       exists y, y ∈ L /\ x = SquareDistance.next y /\
                 k = SquareDistance.dest (SquareDistance.next y)) /\
    (forall k,
       is_Some (M' !! k) <->
       is_Some (M !! k) \/
       exists y, y ∈ L /\ k = SquareDistance.dest (SquareDistance.next y)) /\
    ((forall k l, M !! k = Some l -> l <> []) ->
     forall k l, M' !! k = Some l -> l <> []).
Proof.
  intros HL. revert M. induction HL as [|y L Hy _ IH]; intros M.
  - exists M. split; [done|]. split; [|split; [|done]].
    + intros k x. split; [by left|]. intros [?|(y & []%elem_of_nil & _)]. done.
    + intros k. split; [by left|]. intros [?|(y & []%elem_of_nil & _)]. done.
  - destruct (inner_entries d M y Hy) as (M1 & Hrun & Hent & Hkeys & Hne).
    destruct (IH M1) as (M' & Hrun' & Hent' & Hkeys' & Hne').
    exists M'. rewrite forOf_cons, Hrun, bind_Return. split; [done|].
    split; [|split].
    + intros k x. rewrite Hent', Hent.
      destruct (decide (k = _)) as [->|Hk].
      * rewrite elem_of_app, list_elem_of_singleton. split.
        -- intros [[?| ->]|(z & ? & ? & ?)]; [by left|right..].
           ++ exists y. split; [left|done].
           ++ exists z. split; [by right|done].
        -- intros [?|(z & [->|?]%elem_of_cons & -> & Hk)].
           ++ by left; left.
           ++ by left; right.
           ++ right. by exists z.
      * split.
        -- intros [?|(z & ? & ? & ?)]; [by left|right].
           exists z. split; [by right|done].
        -- intros [?|(z & [->|?]%elem_of_cons & -> & Hk')]; [by left|done|].
           right. by exists z.
    + intros k. rewrite Hkeys', Hkeys. split.
      * intros [[?| ->]|(z & ? & ?)]; [by left|right..].
        -- exists y. split; [left|done].
        -- exists z. split; [by right|done].
      * intros [?|(z & [->|?]%elem_of_cons & ->)].
        -- by left; left.
        -- by left; right.
        -- right. by exists z.
    + intros HM. by apply Hne', Hne.
Qed.

Lemma entries_nonempty M k x : x ∈ entries M k -> is_Some (M !! k).
Proof.
  unfold entries. destruct (M !! k); [by eexists|]. by intros ?%elem_of_nil.
Qed.

Lemma sq_pred_lt s : 0 < s -> (s - 1) ^ 2 < s ^ 2.
Proof. intros. rewrite !Z.pow_2_r. nia. Qed.

(** Before the round for [d], the map has an entry for [d] exactly when [d]
    is a positive perfect square away from a member yielded so far. *)
Lemma mapInvariant_has d ys M :
  mapInvariant d ys M ->
  is_Some (M !! d) <-> exists o s, o ∈ ys /\ 0 < s /\ o + s ^ 2 = d.
Proof.
  intros [Hne Hent]. split.
  - intros [l Hl]. destruct l as [|x l]; [by apply Hne in Hl|].
    assert (x ∈ entries M d) as Hx by (unfold entries; rewrite Hl; left).
    apply Hent in Hx as (Ho & Hs & Hd & _).
    by exists (SquareDistance.origin x), (SquareDistance.sqrtDist x).
  - intros (o & s & Ho & Hs & Hd).
    apply (entries_nonempty M d (SquareDistance.new o s)), Hent. simpl.
    unfold SquareDistance.dest. simpl. pose proof (sq_pred_lt s Hs).
    repeat split; [done|done|done|lia|lia].
Qed.

(** One round of the outer loop keeps the invariant and yields [d] exactly
    when the sequence goes on with it. *)
Lemma round_invariant d ys M :
  0 <= d -> Greedy d ys -> mapInvariant d ys M ->
  exists y M',
    round d M = Return (y, M') /\
    (y = Some d \/ y = None) /\
    Greedy (d + 1) (ys ++ option_list y) /\
    mapInvariant (d + 1) (ys ++ option_list y) M'.
Proof.
  intros Hd Hgreedy Hinv.
  pose proof (mapInvariant_has d ys M Hinv) as Hhas.
  destruct Hinv as [Hne Hent].
  (* the yield and the array the inner loop walks *)
  assert (exists y M1 L,
    (if negb (bool_decide (is_Some (M !! d)))
     then (Some d, <[d := [SquareDistance.new d 0]]> M)
     else (None, M)) = (y, M1) /\
    M1 !! d = Some L /\
    (forall k, k <> d -> entries M1 k = entries M k) /\
    (forall k l, M1 !! k = Some l -> l <> []) /\
    (forall x, x ∈ L <-> x ∈ entries M d \/ (y = Some d /\ x = SquareDistance.new d 0)) /\
    (y = Some d /\ ~ is_Some (M !! d) \/ y = None /\ is_Some (M !! d)))
    as (y & M1 & L & Hcase & HL & Hother & Hne1 & HinL & Hy).
  { case_bool_decide as Hdec; cbn [negb].
    - destruct Hdec as [L HL]. exists None, M, L.
      split; [done|]. split; [done|]. split; [done|]. split; [done|].
      split; [|right; split; [done|by eexists]].
      intros x. unfold entries. rewrite HL. simpl.
      split; [by left|]. by intros [?|[? _]].
    - exists (Some d), (<[d := [SquareDistance.new d 0]]> M),
        [SquareDistance.new d 0].
      split; [done|]. split; [by rewrite lookup_insert_eq|].
      split; [|split; [|split; [|by left]]].
      + intros k Hk. unfold entries. by rewrite lookup_insert_ne.
      + intros k l. destruct (decide (k = d)) as [->|Hk].
        * rewrite lookup_insert_eq. by intros [= <-].
        * rewrite lookup_insert_ne by done. apply Hne.
      + intros x. rewrite list_elem_of_singleton. split; [by right|].
        intros [Hx|[_ ?]]; [|done].
        apply entries_nonempty in Hx. done. }
  assert (Forall (fun x => SquareDistance.dest x = d) L) as Hdest.
  { apply Forall_forall. intros x [Hx|[_ ->]]%HinL.
    - by apply Hent in Hx as (_ & _ & ? & _).
    - unfold SquareDistance.dest. simpl. rewrite Z.pow_2_r. lia. }
  destruct (forOf_inner d L M1 Hdest) as (M2 & Hrun & Hent2 & Hkeys2 & Hne2).
  exists y, (delete d M2). unfold round. rewrite Hcase, HL, Hrun, bind_Return.
  rewrite bool_decide_eq_true_2 by (apply Hkeys2; left; by eexists).
  unfold assert. rewrite bind_Return. split; [done|].
  split; [destruct Hy as [[? _]|[? _]]; [by left|by right]|].
  (* the members after the round *)
  assert (forall z, z ∈ ys ++ option_list y <-> z ∈ ys \/ (y = Some d /\ z = d))
    as Hys.
  { intros z. rewrite elem_of_app.
    destruct Hy as [[-> _]|[-> _]]; simpl.
    - rewrite list_elem_of_singleton. split.
      + intros [?| ->]; [by left|by right].
      + intros [?|[_ ->]]; [by left|by right].
    - split.
      + intros [?|[]%elem_of_nil]. by left.
      + intros [?|[? _]]; [by left|done]. }
  assert (forall z, z ∈ ys -> 0 <= z < d) as Hbelow.
  { intros z Hz. by apply Hgreedy in Hz as [? _]. }
  split.
  - (* the sequence goes on as it should *)
    intros z. rewrite Hys. split.
    + intros [Hz|[Hyd ->]].
      * apply Hgreedy in Hz as [Hz Hfree]. split; [lia|].
        intros (o & s & [Ho|[_ ->]]%Hys & Hs & Heq).
        -- apply Hfree. by exists o, s.
        -- pose proof (Z.pow_pos_nonneg s 2). lia.
      * split; [lia|].
        destruct Hy as [[_ Hnot]|[Hnone _]]; [|congruence].
        intros (o & s & [Ho|[_ ->]]%Hys & Hs & Heq).
        -- apply Hnot, Hhas. by exists o, s.
        -- pose proof (Z.pow_pos_nonneg s 2). lia.
    + intros [Hz Hfree].
      destruct (decide (z = d)) as [->|Hzd].
      * destruct Hy as [[Hyd _]|[_ Hsome]]; [by right|].
        exfalso. apply Hfree. apply Hhas in Hsome as (o & s & Ho & Hs & Heq).
        exists o, s. split; [|done]. apply Hys. by left.
      * left. apply Hgreedy. split; [lia|].
        intros (o & s & Ho & Hs & Heq). apply Hfree.
        exists o, s. split; [|done]. apply Hys. by left.
  - (* the map after the round *)
    split.
    + intros k l. destruct (decide (k = d)) as [->|Hk].
      * by rewrite lookup_delete_eq.
      * rewrite lookup_delete_ne by done. by apply Hne2.
    + intros k [o s]. simpl. unfold SquareDistance.dest. simpl.
      assert (SquareDistance.new o s ∈ entries (delete d M2) k <->
              k <> d /\
              (SquareDistance.new o s ∈ entries M k \/
               exists x, x ∈ L /\
                 SquareDistance.new o s = SquareDistance.next x /\
                 k = SquareDistance.dest (SquareDistance.next x))) as ->.
      { unfold entries at 1. destruct (decide (k = d)) as [->|Hk].
        - rewrite lookup_delete_eq. simpl. split; [by intros ?%elem_of_nil|].
          by intros [? _].
        - rewrite lookup_delete_ne by done.
          change (default [] (M2 !! k)) with (entries M2 k).
          rewrite Hent2, (Hother k Hk). tauto. }
      rewrite Hys. split.
      * intros [Hk [Hx|(x & Hx & Heq & Hk')]].
        -- apply Hent in Hx as (Ho & Hs & Hdx & Hle & Hlt). simpl in *.
           unfold SquareDistance.dest in Hdx. simpl in Hdx.
           split_and!; first [done|lia|nia|by left|by right].
        -- destruct x as [o' s']. unfold SquareDistance.next in Heq.
           simpl in Heq. injection Heq as -> ->.
           rewrite next_dest in Hk'.
           apply HinL in Hx as [Hx|[Hyd Hx]].
           ++ apply Hent in Hx as (Ho & Hs & Hdx & _ & _). simpl in *.
              unfold SquareDistance.dest in *. simpl in *.
              replace (s' + 1 - 1) with s' by lia.
              rewrite Z.pow_2_r in *. split_and!; first [done|lia|nia|by left|by right].
           ++ injection Hx as -> ->. unfold SquareDistance.dest in *.
              simpl in *. rewrite !Z.pow_2_r in *.
              split_and!; first [done|lia|nia|by left|by right].
      * intros (Ho & Hs & Hk & Hle & Hlt). split; [lia|].
        destruct (decide (o + (s - 1) ^ 2 < d)) as [Hlt'|Hge].
        -- left. apply Hent. simpl. unfold SquareDistance.dest. simpl.
           destruct Ho as [Ho|[_ ->]].
           ++ split_and!; first [done|lia|nia|by left|by right].
           ++ pose proof (Z.pow_nonneg (s - 1) 2). lia.
        -- right. exists (SquareDistance.new o (s - 1)).
           assert (o + (s - 1) ^ 2 = d) as Hmid by lia.
           unfold SquareDistance.next. simpl.
           replace (s - 1 + 1) with s by lia.
           split; [|split; [done|by unfold SquareDistance.dest]].
           apply HinL. destruct (decide (s = 1)) as [->|Hs1].
           ++ right. simpl in Hmid. assert (o = d) as -> by lia.
              split; [|done].
              destruct Ho as [Ho|[? _]]; [|done].
              apply Hbelow in Ho. lia.
           ++ left. apply Hent. simpl. unfold SquareDistance.dest. simpl.
              pose proof (sq_pred_lt (s - 1)).
              assert (0 < (s - 1) ^ 2) by (rewrite Z.pow_2_r; nia).
              destruct Ho as [Ho|[_ ->]]; [|lia].
              split_and!; first [done|lia|nia|by left|by right].
Qed.

Lemma rounds_invariant n d ys M :
  0 <= d -> Greedy d ys -> mapInvariant d ys M ->
  exists more M',
    rounds n d M = Return (more, M') /\
    StronglySorted Z.lt more /\
    Forall (fun z => d <= z) more /\
    Greedy (d + Z.of_nat n) (ys ++ more) /\
    mapInvariant (d + Z.of_nat n) (ys ++ more) M'.
Proof.
  revert d ys M. induction n as [|n IH]; intros d ys M Hd Hgreedy Hinv.
  - exists [], M. rewrite app_nil_r, Z.add_0_r.
    split; [done|]. split; [constructor|]. split; [constructor|done].
  - destruct (round_invariant d ys M Hd Hgreedy Hinv)
      as (y & M1 & Hround & Hy & Hgreedy1 & Hinv1).
    destruct (IH (d + 1) (ys ++ option_list y) M1)
      as (more & M' & Hrounds & Hsorted & Hlower & Hgreedy' & Hinv');
      [lia|done|done|].
    exists (option_list y ++ more), M'. cbn [rounds].
    rewrite Hround, bind_Return. cbn beta iota. rewrite Hrounds, bind_Return.
    rewrite app_assoc.
    replace (d + Z.of_nat (S n)) with (d + 1 + Z.of_nat n) by lia.
    split; [done|]. split; [|split; [|done]].
    + destruct Hy as [-> | ->]; simpl; [|done].
      constructor; [done|]. eapply Forall_impl; [done|]. simpl. lia.
    + apply Forall_app. split.
      * destruct Hy as [-> | ->]; simpl; repeat constructor. lia.
      * eapply Forall_impl; [done|]. simpl. lia.
Qed.

(** What the generator yields while [dest] is below [n], with the
    properties kept by the rounds. *)
Lemma squareDifferenceFree_invariant (n : nat) :
  exists yielded,
    squareDifferenceFree n = Return yielded /\
    StronglySorted Z.lt yielded /\
    Greedy (Z.of_nat n) yielded.
Proof.
  destruct (rounds_invariant n 0 [] ∅) as (more & M' & Hrun & Hsorted & _ & Hgreedy & _).
  - done.
  - intros z. split; [by intros ?%elem_of_nil|]. lia.
  - split; [by intros k l; rewrite lookup_empty|].
    intros k x. unfold entries. rewrite lookup_empty. simpl.
    split; [by intros ?%elem_of_nil|]. by intros [?%elem_of_nil _].
  - exists more. unfold squareDifferenceFree. rewrite Hrun, bind_Return.
    split; [done|]. split; [done|]. by rewrite Z.add_0_l in Hgreedy.
Qed.

(** X12. The generator never fails an assertion, and what it yields while [dest]
    is below [n] is, in ascending order, the square-difference-free
    sequence below [n]: a natural number below [n] is yielded exactly when
    it is not a positive perfect square above a yielded number. *)
Theorem squareDifferenceFree_greedy (n : nat) :
  exists yielded,
    squareDifferenceFree n = Return yielded /\
    StronglySorted Z.lt yielded /\
    forall z,
      z ∈ yielded <->
      0 <= z < Z.of_nat n /\
      ~ exists o s, o ∈ yielded /\ 0 < s /\ o + s ^ 2 = z.
Proof.
  destruct (squareDifferenceFree_invariant n) as (yielded & Hrun & Hsorted & Hgreedy).
  by exists yielded.
Qed.

Lemma length_squaresAbove n smax : length (squaresAbove n smax) = (n * smax)%nat.
Proof.
  unfold squaresAbove. rewrite length_fmap, length_prod, !length_seqZ. lia.
Qed.

Lemma elem_of_squaresAbove n smax o s :
  0 <= o < Z.of_nat n -> 1 <= s <= Z.of_nat smax ->
  o + s ^ 2 ∈ squaresAbove n smax.
Proof.
  intros Ho Hs. unfold squaresAbove. apply list_elem_of_fmap.
  exists (o, s). split; [done|].
  apply list_elem_of_In, in_prod; apply list_elem_of_In, elem_of_seqZ; lia.
Qed.

(** X13. Among the [4 * n * n + 1] numbers from [n] on the generator yields at
    least one: it never stops yielding. *)
Theorem squareDifferenceFree_goes_on (n : nat) :
  exists yielded z,
    squareDifferenceFree (n + 4 * n * n + 1) = Return yielded /\
    z ∈ yielded /\ Z.of_nat n <= z.
Proof.
  destruct (squareDifferenceFree_invariant (n + 4 * n * n + 1))
    as (yielded & Hrun & _ & Hgreedy).
  exists yielded.
  destruct (decide (Exists (fun z => Z.of_nat n <= z) yielded)) as [Hex|Hnone].
  { apply Exists_exists in Hex as (z & Hz & Hle). by exists z. }
  exfalso.
  assert (forall o, o ∈ yielded -> 0 <= o < Z.of_nat n) as Hbelow.
  { intros o Ho. pose proof (proj1 (Hgreedy o) Ho) as [Hrange _].
    split; [lia|]. destruct (decide (o < Z.of_nat n)); [done|].
    exfalso. apply Hnone, Exists_exists. exists o. split; [done|lia]. }
  assert (forall z, z ∈ seqZ (Z.of_nat n) (Z.of_nat (4 * n * n + 1)) ->
                    z ∈ squaresAbove n (2 * n + 1)) as Hcover.
  { intros z Hz%elem_of_seqZ.
    destruct (decide (z ∈ squaresAbove n (2 * n + 1))) as [|Hnot]; [done|].
    exfalso.
    assert (z ∉ yielded) as Hz'.
    { intros Hin. apply Hbelow in Hin. lia. }
    apply Hz'. apply Hgreedy. split; [lia|].
    intros (o & s & Ho & Hs & Heq). apply Hnot. subst z.
    apply elem_of_squaresAbove; [by apply Hbelow|].
    apply Hbelow in Ho. split; [lia|].
    rewrite Z.pow_2_r in Hz. nia. }
  apply NoDup_submseteq in Hcover; [|apply NoDup_seqZ].
  apply submseteq_length in Hcover.
  rewrite length_seqZ, length_squaresAbove in Hcover. nia.
Qed.

End SquareDifferenceFreeFacts.
